(** * Active-section resolution of the portfolio page

    The page highlights one navigation entry at a time.  The entry is chosen
    by [computeActiveFromEntries], which the IntersectionObserver callback of
    [App] calls with every batch of observations.  The function exists twice
    in the repository (in [src/App.js] and in a second copy of the
    component); both are embedded below and shown to agree.

    JavaScript is untyped and objects are references into a mutable heap, so
    the embedding works over a small model of JavaScript values, a heap of
    objects and a state-and-exception monad.  The program text is translated
    statement by statement into that monad. *)

From stdpp Require Import gmap strings list.
From Stdlib Require Import ZArith.

Local Open Scope Z_scope.

(** ** JavaScript values, heap and primitive operations *)

Module JS.

Definition loc := positive.

(** Numbers are IEEE doubles.  Every finite double is [m * 2^e] for
    integers [m] and [e]; negative zero, the infinities and NaN are kept
    apart.  Only comparison and truthiness are needed, and both are exact
    on this representation. *)
Inductive number :=
| NaN
| Infinity (negative : bool)
| NegZero
| Dyadic (m e : Z).

(** Strings are kept as Rocq strings.  The program looks at a string only
    to see whether its length is zero. *)
Inductive value :=
| VUndefined
| VNull
| VBool (b : bool)
| VNum (n : number)
| VBigInt (z : Z)
| VStr (s : string)
| VSymbol (id : positive)
| VRef (l : loc).

(** What kind of object lives at a heap location.  An array carries its
    elements (a hole reads as [undefined], so it is stored as
    [VUndefined]). *)
Inductive obj_class :=
| PlainObject
| ArrayObject (elems : list value)
| FunctionObject.

(** [props] holds the data properties that a read through the object
    finds, own or inherited.  Accessor properties and proxies are outside
    the model. *)
Record object := mkObject {
  class : obj_class;
  props : gmap string value
}.

(** Calls into the host (React setters, console) are recorded as events. *)
Inductive event :=
| HostCall (fn : string) (args : list value).

Record world := mkWorld {
  heap : gmap loc object;
  trace : list event
}.

Inductive abort :=
| TypeError      (* the exception JavaScript throws on [null.x] *)
| Unmodelled     (* an operator applied outside the fragment modelled here *)
| OutOfFuel.     (* the loop bound of the embedding was exhausted *)

Inductive outcome (A : Type) :=
| Ret (a : A)
| Abort (e : abort).
Arguments Ret {A} a.
Arguments Abort {A} e.

(** The monad of JavaScript computations: state passing over [world],
    with aborts that keep the state reached so far. *)
Definition M (A : Type) : Type := world → outcome A * world.

Definition ret {A} (a : A) : M A := λ w, (Ret a, w).

Definition bind {A B} (m : M A) (k : A → M B) : M B :=
  λ w, match m w with
       | (Ret a, w') => k a w'
       | (Abort e, w') => (Abort e, w')
       end.

Definition throw {A} (e : abort) : M A := λ w, (Abort e, w).

(** A computation that only inspects the heap. *)
Definition inspect {A} (f : gmap loc object → outcome A) : M A :=
  λ w, (f (heap w), w).

(** The two computations that change the world. *)
Definition emit (ev : event) : M unit :=
  λ w, (Ret tt, mkWorld (heap w) (trace w ++ [ev])).

Definition empty_object : object := mkObject PlainObject ∅.

Definition object_at (h : gmap loc object) (l : loc) : object :=
  default empty_object (h !! l).

Definition set_prop (v : value) (k : string) (x : value) : M unit :=
  λ w, match v with
       | VUndefined | VNull => (Abort TypeError, w)
       | VRef l =>
           let o := object_at (heap w) l in
           (Ret tt,
            mkWorld (<[l := mkObject (class o) (<[k := x]> (props o))]> (heap w))
                    (trace w))
       | _ => (Ret tt, w)      (* a write to a primitive is dropped *)
       end.

(** *** Numbers *)

Definition num_of_nat (n : nat) : number := Dyadic (Z.of_nat n) 0.

Definition num_truthy (n : number) : bool :=
  match n with
  | NaN => false
  | Infinity _ => true
  | NegZero => false
  | Dyadic m _ => negb (m =? 0)
  end.

(** Comparison of two numbers; [None] when one of them is NaN. *)
Definition num_compare (x y : number) : option comparison :=
  let dyadic m1 e1 m2 e2 :=
    let e := Z.min e1 e2 in
    Some ((m1 * 2 ^ (e1 - e)) ?= (m2 * 2 ^ (e2 - e))) in
  match x, y with
  | NaN, _ | _, NaN => None
  | Infinity a, Infinity b =>
      Some (if a then (if b then Eq else Lt) else (if b then Gt else Eq))
  | Infinity a, _ => Some (if a then Lt else Gt)
  | _, Infinity b => Some (if b then Gt else Lt)
  | NegZero, NegZero => Some Eq
  | NegZero, Dyadic m e => dyadic 0 0 m e
  | Dyadic m e, NegZero => dyadic m e 0 0
  | Dyadic m1 e1, Dyadic m2 e2 => dyadic m1 e1 m2 e2
  end.

(** *** Operators *)

(** ToBoolean: what [!x], [x && y] and [if (x)] test. *)
Definition truthy (v : value) : bool :=
  match v with
  | VUndefined | VNull => false
  | VBool b => b
  | VNum n => num_truthy n
  | VBigInt z => negb (z =? 0)
  | VStr s => negb (String.eqb s "")
  | VSymbol _ => true
  | VRef _ => true
  end.

Definition typeof (v : value) : M string :=
  inspect (λ h, Ret
    match v with
    | VUndefined => "undefined"
    | VNull => "object"
    | VBool _ => "boolean"
    | VNum _ => "number"
    | VBigInt _ => "bigint"
    | VStr _ => "string"
    | VSymbol _ => "symbol"
    | VRef l => match class (object_at h l) with
                | FunctionObject => "function"
                | _ => "object"
                end
    end)%string.

Definition Array_isArray (v : value) : M bool :=
  inspect (λ h, Ret
    match v with
    | VRef l => match class (object_at h l) with
                | ArrayObject _ => true
                | _ => false
                end
    | _ => false
    end).

(** [v.k] for a property name [k].  Reading a property of [undefined] or
    [null] throws.  Primitives have no properties of their own; of the
    properties they inherit only the [length] of a string is modelled (the
    program reads no other inherited property). *)
Definition read_prop (h : gmap loc object) (v : value) (k : string) : outcome value :=
  match v with
  | VUndefined | VNull => Abort TypeError
  | VStr s =>
      if String.eqb k "length" then Ret (VNum (num_of_nat (String.length s)))
      else Ret VUndefined
  | VRef l =>
      let o := object_at h l in
      match class o with
      | ArrayObject elems =>
          if String.eqb k "length" then Ret (VNum (num_of_nat (length elems)))
          else Ret (default VUndefined (props o !! k))
      | _ => Ret (default VUndefined (props o !! k))
      end
  | _ => Ret VUndefined
  end.

Definition get_prop (v : value) (k : string) : M value :=
  inspect (λ h, read_prop h v k).

(** [v[i]] for an index [i] that the program keeps as a counter. *)
Definition read_index (h : gmap loc object) (v : value) (i : nat) : outcome value :=
  match v with
  | VUndefined | VNull => Abort TypeError
  | VRef l =>
      match class (object_at h l) with
      | ArrayObject elems => Ret (default VUndefined (elems !! i))
      | _ => Abort Unmodelled
      end
  | _ => Abort Unmodelled
  end.

Definition get_index (v : value) (i : nat) : M value :=
  inspect (λ h, read_index h v i).

(** [a < b] and [a > b], modelled on numbers. *)
Definition js_lt (a b : value) : M bool :=
  match a, b with
  | VNum x, VNum y =>
      ret (match num_compare x y with Some Lt => true | _ => false end)
  | _, _ => throw Unmodelled
  end.

Definition js_gt (a b : value) : M bool :=
  match a, b with
  | VNum x, VNum y =>
      ret (match num_compare x y with Some Gt => true | _ => false end)
  | _, _ => throw Unmodelled
  end.

(** [a === b]: no conversion; NaN differs from itself, the two zeros are
    equal, objects are compared by identity. *)
Definition js_strict_eq (a b : value) : bool :=
  match a, b with
  | VUndefined, VUndefined | VNull, VNull => true
  | VBool x, VBool y => Bool.eqb x y
  | VNum x, VNum y =>
      match num_compare x y with Some Eq => true | _ => false end
  | VBigInt x, VBigInt y => x =? y
  | VStr x, VStr y => String.eqb x y
  | VSymbol x, VSymbol y => Pos.eqb x y
  | VRef x, VRef y => Pos.eqb x y
  | _, _ => false
  end.

(** Number of elements of the array behind [v], 0 for anything else. *)
Definition array_size (h : gmap loc object) (v : value) : nat :=
  match v with
  | VRef l => match class (object_at h l) with
              | ArrayObject elems => length elems
              | _ => 0%nat
              end
  | _ => 0%nat
  end.

End JS.

Export JS.

Declare Scope js_scope.
Delimit Scope js_scope with js.
Notation "x <- c1 ;; c2" := (bind c1 (λ x, c2))
  (at level 100, c1 at next level, right associativity) : js_scope.
Notation "c1 ;;; c2" := (bind c1 (λ _, c2))
  (at level 100, right associativity) : js_scope.
Local Open Scope js_scope.

(** [!a || b], evaluated left to right with short circuit. *)
Definition js_or (a b : M bool) : M bool :=
  x <- a ;; if x then ret true else b.

Definition js_and (a b : M bool) : M bool :=
  x <- a ;; if x then b else ret false.

(** ** The two copies of the resolver *)

Module App.

(** One turn of the loop body of [computeActiveFromEntries]: the value of
    [nextId] after the statements for index [i].
<<
    const entry = entries[i];
    if (!entry || !entry.isIntersecting) continue;
    const target = entry.target;
    if (target && typeof target.id === "string" && target.id.length > 0) {
      nextId = target.id;
    }
>> *)
Definition loop_body (entries : value) (i : nat) (nextId : value) : M value :=
  entry <- get_index entries i ;;
  skip <- js_or (ret (negb (truthy entry)))
                (f <- get_prop entry "isIntersecting" ;; ret (negb (truthy f))) ;;
  if skip then ret nextId else
  target <- get_prop entry "target" ;;
  ok <- js_and (ret (truthy target))
          (js_and (id <- get_prop target "id" ;;
                   t <- typeof id ;;
                   ret (String.eqb t "string"))
                  (id <- get_prop target "id" ;;
                   len <- get_prop id "length" ;;
                   js_gt len (VNum (num_of_nat 0)))) ;;
  if ok then get_prop target "id" else ret nextId.

(** [for (let i = 0; i < entries.length; i++) { ... }], continued from
    index [i].  The condition is tested at most [fuel] times. *)
Fixpoint for_loop (fuel : nat) (entries : value) (i : nat) (nextId : value)
  : M value :=
  match fuel with
  | O => throw OutOfFuel
  | S fuel' =>
      len <- get_prop entries "length" ;;
      more <- js_lt (VNum (num_of_nat i)) len ;;
      if more then
        nextId' <- loop_body entries i nextId ;;
        for_loop fuel' entries (S i) nextId'
      else ret nextId
  end.

(** [computeActiveFromEntries(entries, prevId)].  The loop tests its
    condition once per element and once more to leave, so the bound of
    [for_loop] is taken from the array as it is on entry.
<<
    let nextId = prevId;
    if (!Array.isArray(entries)) return nextId;
    for (...) { ... }
    return nextId;
>> *)
Definition computeActiveFromEntries (entries prevId : value) : M value :=
  let nextId := prevId in
  isArr <- Array_isArray entries ;;
  if negb isArr then ret nextId else
  λ w, for_loop (S (array_size (heap w) entries)) entries 0 nextId w.

(** The callback handed to [IntersectionObserver]: it resolves the batch
    against [activeRef.current] and stores a new identifier in the ref and
    in the component state.
<<
    const nextId = computeActiveFromEntries(entries, activeRef.current);
    if (typeof nextId === "string" && nextId.length > 0
        && nextId !== activeRef.current) {
      activeRef.current = nextId;
      setActiveSection(nextId);
    }
>> *)
Definition observer_callback (activeRef entries : value) : M unit :=
  current <- get_prop activeRef "current" ;;
  nextId <- computeActiveFromEntries entries current ;;
  changed <- js_and (t <- typeof nextId ;; ret (String.eqb t "string"))
               (js_and (len <- get_prop nextId "length" ;;
                        js_gt len (VNum (num_of_nat 0)))
                       (current' <- get_prop activeRef "current" ;;
                        ret (negb (js_strict_eq nextId current')))) ;;
  if changed then
    set_prop activeRef "current" nextId ;;;
    emit (HostCall "setActiveSection" [nextId])
  else ret tt.

End App.

(** The second copy of the component carries the same function. *)
Module Part000.

Definition loop_body (entries : value) (i : nat) (nextId : value) : M value :=
  entry <- get_index entries i ;;
  skip <- js_or (ret (negb (truthy entry)))
                (f <- get_prop entry "isIntersecting" ;; ret (negb (truthy f))) ;;
  if skip then ret nextId else
  target <- get_prop entry "target" ;;
  ok <- js_and (ret (truthy target))
          (js_and (id <- get_prop target "id" ;;
                   t <- typeof id ;;
                   ret (String.eqb t "string"))
                  (id <- get_prop target "id" ;;
                   len <- get_prop id "length" ;;
                   js_gt len (VNum (num_of_nat 0)))) ;;
  if ok then get_prop target "id" else ret nextId.

Fixpoint for_loop (fuel : nat) (entries : value) (i : nat) (nextId : value)
  : M value :=
  match fuel with
  | O => throw OutOfFuel
  | S fuel' =>
      len <- get_prop entries "length" ;;
      more <- js_lt (VNum (num_of_nat i)) len ;;
      if more then
        nextId' <- loop_body entries i nextId ;;
        for_loop fuel' entries (S i) nextId'
      else ret nextId
  end.

Definition computeActiveFromEntries (entries prevId : value) : M value :=
  let nextId := prevId in
  isArr <- Array_isArray entries ;;
  if negb isArr then ret nextId else
  λ w, for_loop (S (array_size (heap w) entries)) entries 0 nextId w.

End Part000.

(** ** Test data: object literals laid out in a heap *)

Definition obj (fields : list (string * value)) : object :=
  mkObject PlainObject (list_to_map fields).

Definition arr (elems : list value) : object :=
  mkObject (ArrayObject elems) ∅.

Definition world_of (objects : list (loc * object)) : world :=
  mkWorld (list_to_map objects) [].

Definition observation (isIntersecting target : value) : object :=
  obj [("isIntersecting", isIntersecting); ("target", target)].

Definition section_ (id : value) : object := obj [("id", id)].

(** The batches of the runtime assertions of [App], and a few more. *)
Definition test_world : world := world_of [
  (1,  obj [("current", VStr "home")]);
  (10, arr [VNull; VUndefined]);
  (20, arr [VRef 21]);
  (21, observation (VBool true) VNull);
  (30, arr [VRef 31]);
  (31, observation (VBool true) (VRef 32));
  (32, section_ (VStr "features"));
  (40, arr [VRef 41; VRef 43]);
  (41, observation (VBool true) (VRef 42));
  (42, section_ (VStr "home"));
  (43, observation (VBool true) (VRef 44));
  (44, section_ (VStr "portfolio"));
  (45, arr [VRef 43; VRef 41]);
  (46, arr [VRef 41; VRef 51; VRef 43]);
  (47, arr [VRef 41; VNull; VRef 43]);
  (50, arr [VRef 51]);
  (51, observation (VBool false) (VRef 52));
  (52, section_ (VStr "resume"));
  (60, arr []);
  (70, arr [VRef 71]);
  (71, observation (VBool true) (VRef 72));
  (72, section_ (VStr ""));
  (80, arr [VRef 81]);
  (81, observation (VBool true) (VRef 82));
  (82, section_ (VNum (Dyadic 123 0)));
  (90, arr [VRef 41; VRef 91]);
  (91, observation (VNum (Dyadic 1 0)) (VRef 52));
  (92, arr [VRef 41; VRef 93]);
  (93, observation (VStr "yes") (VRef 52));
  (48, arr [VRef 41; VRef 43; VRef 51; VNull]);
  (94, arr [VRef 43; VNum (Dyadic 0 0); VRef 41]);
  (95, arr [VRef 43; VNull; VRef 41])
]%positive.

Definition home : value := VStr "home".

(** A runtime assertion calls the resolver on a literal batch with
    ["home"] as previous identifier. *)
Definition run_assertion (entries : positive) : outcome value * world :=
  App.computeActiveFromEntries (VRef entries) home test_world.

(** ** Describing a batch *)

(** The elements of the array behind [v], when [v] is an array. *)
Definition array_elems (h : gmap loc object) (v : value) : option (list value) :=
  match v with
  | VRef l => match class (object_at h l) with
              | ArrayObject elems => Some elems
              | _ => None
              end
  | _ => None
  end.

(** [field h v k] is what is found under [k] in [v]: the property when
    there is one, [undefined] when [v] has no such property or is itself
    [null] or [undefined]. *)
Definition field (h : gmap loc object) (v : value) (k : string) : value :=
  match read_prop h v k with
  | Ret x => x
  | Abort _ => VUndefined
  end.

(** The target identifier of an entry: [entry.target.id]. *)
Definition target_id (h : gmap loc object) (e : value) : value :=
  field h (field h e "target") "id".

(** An entry qualifies with identifier [id]: it is not null or absent, its
    [isIntersecting] holds, and its target identifier is present, a string
    and not empty.  [isIntersecting] holds when it is truthy, which for a
    boolean means that it is [true]. *)
Definition qualifying (h : gmap loc object) (e : value) (id : string) : Prop :=
  e ≠ VNull ∧ e ≠ VUndefined ∧
  truthy (field h e "isIntersecting") = true ∧
  target_id h e = VStr id ∧ id ≠ ""%string.

(** The kinds of entry that are passed over. *)
Inductive non_qualifying (h : gmap loc object) : value → Prop :=
| nq_null : non_qualifying h VNull
| nq_absent : non_qualifying h VUndefined
| nq_not_intersecting e :
    field h e "isIntersecting" = VBool false → non_qualifying h e
| nq_id_absent e :
    target_id h e = VUndefined → non_qualifying h e
| nq_id_not_string e :
    (∀ s, target_id h e ≠ VStr s) → non_qualifying h e
| nq_id_empty e :
    target_id h e = VStr "" → non_qualifying h e.

Definition nonempty_string (v : value) : Prop :=
  ∃ s, v = VStr s ∧ s ≠ ""%string.

(** ** What the loop computes *)

(** The guard of the loop body as a function of the entry: the identifier
    that the body assigns, if it assigns one. *)
Definition qualifies (h : gmap loc object) (e : value) : option string :=
  if truthy e then
    if truthy (field h e "isIntersecting") then
      let target := field h e "target" in
      if truthy target then
        match field h target "id" with
        | VStr s => if (0 <? String.length s)%nat then Some s else None
        | _ => None
        end
      else None
    else None
  else None.

Definition step (h : gmap loc object) (nextId e : value) : value :=
  match qualifies h e with
  | Some s => VStr s
  | None => nextId
  end.

(** The result of a call as a function of the heap. *)
Definition resolve (h : gmap loc object) (entries prevId : value) : value :=
  match array_elems h entries with
  | Some elems => fold_left (step h) elems prevId
  | None => prevId
  end.

(** One notification of two entries, and the same two entries as two
    notifications. *)
Definition split_world : world := world_of [
  (1, arr [VRef 4; VRef 6]);
  (2, arr [VRef 4]);
  (3, arr [VRef 6]);
  (4, observation (VBool true) (VRef 5));
  (5, section_ (VStr "features"));
  (6, observation (VBool false) (VRef 7));
  (7, section_ (VStr "resume"))
]%positive.

(** ** Delivering batches *)

(** The observer calls its callback once per notification, in the order
    in which the notifications arrive. *)
Fixpoint deliver (activeRef : value) (batches : list value) : M unit :=
  match batches with
  | [] => ret tt
  | entries :: later =>
      App.observer_callback activeRef entries ;;; deliver activeRef later
  end.

(** What the callback tells the component over a run of batches that
    starts with [current]: the identifiers that differ from the one before
    them, in order. *)
Fixpoint announced (h : gmap loc object) (current : string) (batches : list value)
  : list string :=
  match batches with
  | [] => []
  | entries :: later =>
      match resolve h entries (VStr current) with
      | VStr n => if String.eqb n current then announced h current later
                  else n :: announced h n later
      | _ => announced h current later
      end
  end.

(** ** The typewriter *)

Module Typewriter.

Local Open Scope nat_scope.

(** A JavaScript string as the sequence of its code units; [s.length] is
    the length of the sequence and [s.slice(0, n)] its first [n] units. *)
Abbreviation text := (list N).

(** The props of the component.  [strings] may be missing; the delays are
    in milliseconds. *)
Record props := mkProps {
  strings : option (list text);
  typeSpeed : nat;
  backSpeed : nat;
  pause : nat;
  loop : bool
}.

(** The three state variables [idx], [len] and [deleting]. *)
Record state := mkState {
  idx : nat;
  len : nat;
  deleting : bool
}.

Definition initial : state := mkState 0 0 false.

(** [strings?.[idx] || ""] *)
Definition current (p : props) (s : state) : text :=
  match strings p with
  | Some l => default [] (l !! idx s)
  | None => []
  end.

(** [strings.length], read where [strings] is known to be there. *)
Definition count (p : props) : nat := length (default [] (strings p)).

(** What one run of the effect does: nothing, a timer that changes the
    state when it fires, or state changes made at once. *)
Inductive reaction :=
| Idle
| After (delay : nat) (s' : state)
| Now (s' : state).

(** The body of [useEffect].
<<
    if (!current) return;
    if (!deleting && len < current.length)   setTimeout(() => setLen(l => l + 1), typeSpeed)
    if (!deleting && len === current.length) setTimeout(() => setDeleting(true), pause)
    if (deleting && len > 0)                 setTimeout(() => setLen(l => l - 1), backSpeed)
    if (deleting && len === 0) {
      const next = (idx + 1) % strings.length;
      setIdx(next); setDeleting(false);
      if (!loop && next === 0) { setLen(current.length); setDeleting(false); }
    }
>> *)
Definition effect (p : props) (s : state) : reaction :=
  let cur := current p s in
  if bool_decide (cur = []) then Idle
  else if negb (deleting s) && (len s <? length cur) then
    After (typeSpeed p) (mkState (idx s) (len s + 1) (deleting s))
  else if negb (deleting s) && (len s =? length cur) then
    After (pause p) (mkState (idx s) (len s) true)
  else if deleting s && (0 <? len s) then
    After (backSpeed p) (mkState (idx s) (len s - 1) (deleting s))
  else if deleting s && (len s =? 0) then
    let next := (idx s + 1) mod count p in
    Now (mkState next
           (if negb (loop p) && (next =? 0) then length cur else len s)
           false)
  else Idle.

(** [k] runs of the effect, each followed by what it set up: the
    milliseconds that pass and the state reached.  An idle effect ends the
    run, since nothing will start it again. *)
Fixpoint run (p : props) (k : nat) (s : state) : nat * state :=
  match k with
  | 0 => (0, s)
  | S k' =>
      match effect p s with
      | Idle => (0, s)
      | After delay s' => let '(t, s'') := run p k' s' in (delay + t, s'')
      | Now s' => run p k' s'
      end
  end.

(** [current.slice(0, len)], the text on the page. *)
Definition shown (p : props) (s : state) : text := take (len s) (current p s).

End Typewriter.

(** ** The theme toggle *)

Module ThemeToggle.

(** The part of the browser that the component touches: [localStorage]
    and the class list of the document element. *)
Record browser := mkBrowser {
  localStorage : gmap string string;
  classList : gset string
}.

(** [classList.toggle(name, force)] *)
Definition classList_toggle (name : string) (force : bool) (classes : gset string)
  : gset string :=
  if force then {[name]} ∪ classes else classes ∖ {[name]}.

(** [String(b)] for a boolean. *)
Definition String_of_bool (b : bool) : string :=
  if b then "true"%string else "false"%string.

(** The effect that runs when the component mounts: the state [dark] and
    the browser after it.
<<
    const stored = localStorage.getItem("theme-dark");
    const initial = stored === "true";
    setDark(initial);
    document.documentElement.classList.toggle("dark", initial);
>> *)
Definition mount (b : browser) : bool * browser :=
  let stored := localStorage b !! "theme-dark"%string in
  let initial := bool_decide (stored = Some "true"%string) in
  (initial, mkBrowser (localStorage b) (classList_toggle "dark" initial (classList b))).

(** The click handler.
<<
    const next = !dark;
    setDark(next);
    localStorage.setItem("theme-dark", String(next));
    document.documentElement.classList.toggle("dark", next);
>> *)
Definition onToggle (dark : bool) (b : browser) : bool * browser :=
  let next := negb dark in
  (next,
   mkBrowser (<["theme-dark"%string := String_of_bool next]> (localStorage b))
             (classList_toggle "dark" next (classList b))).

End ThemeToggle.

(** [h'] is [h] except for the property [current] of the object at [r]:
    every object keeps its class, and every other property reads as
    before. *)
Definition same_but_current (r : loc) (h h' : gmap loc object) : Prop :=
  (∀ l, class (object_at h' l) = class (object_at h l)) ∧
  (∀ l k, (l, k) ≠ (r, "current"%string) →
          props (object_at h' l) !! k = props (object_at h l) !! k).

(** ** The project search *)

Module Search.

(** A JavaScript string as the sequence of its code units. *)
Abbreviation text := (list N).

(** What the search reads of a project. *)
Record project := mkProject {
  title : text;
  tags : list text
}.

(** [s.startsWith(sub)] and [s.includes(sub)]: [sub] occurs in [s] as a
    run of code units. *)
Fixpoint starts_with (s sub : text) : bool :=
  match sub, s with
  | [], _ => true
  | _ :: _, [] => false
  | c :: sub', d :: s' => N.eqb c d && starts_with s' sub'
  end.

Fixpoint includes (s sub : text) : bool :=
  starts_with s sub ||
  match s with
  | [] => false
  | _ :: s' => includes s' sub
  end.

(** The predicate handed to [projects.filter], with [toLowerCase] as
    [lower].
<<
    (p) => p.title.toLowerCase().includes(query.toLowerCase()) ||
           p.tags.some((t) => t.toLowerCase().includes(query.toLowerCase()))
>> *)
Definition matches (lower : text → text) (query : text) (p : project) : bool :=
  includes (lower (title p)) (lower query) ||
  existsb (λ t, includes (lower t) (lower query)) (tags p).

(** [const filtered = projects.filter(...)] *)
Definition filtered (lower : text → text) (projects : list project) (query : text)
  : list project :=
  List.filter (matches lower query) projects.

(** Lower case for the letters A to Z, which is what [toLowerCase] does
    to a string of ASCII characters. *)
Definition ascii_lower (s : text) : text :=
  List.map (λ c, if (65 <=? c)%N && (c <=? 90)%N then (c + 32)%N else c) s.

(** The code units of a string of ASCII characters. *)
Definition code_units (s : string) : text :=
  List.map Ascii.N_of_ascii (String.list_ascii_of_string s).

(** The projects of the second copy of the component. *)
Definition sample_projects : list project := [
  mkProject (code_units "Salesforce Automation")
            [code_units "Salesforce"; code_units "Apex"];
  mkProject (code_units "MuleSoft API Suite")
            [code_units "MuleSoft"; code_units "Integration"];
  mkProject (code_units "Data Pipeline Monitor")
            [code_units "Data"; code_units "ETL"]
].

End Search.

(** ** The scroll fallback *)

Module Fallback.

(** What the fallback asks of the browser.  The layout of the page and
    the arithmetic of doubles are not part of the program; they are taken as
    given. *)
Record host := mkHost {
  getBoundingClientRect : value → M value;   (* [sec.getBoundingClientRect()] *)
  innerHeight : M value;                     (* [window.innerHeight] *)
  float_add : number → number → number;      (* [x + y] on numbers *)
  float_div : number → number → number       (* [x / y] on numbers *)
}.

(** [a + b] and [a / b], modelled on numbers. *)
Definition js_add (H : host) (a b : value) : M value :=
  match a, b with
  | VNum x, VNum y => ret (VNum (float_add H x y))
  | _, _ => throw Unmodelled
  end.

Definition js_div (H : host) (a b : value) : M value :=
  match a, b with
  | VNum x, VNum y => ret (VNum (float_div H x y))
  | _, _ => throw Unmodelled
  end.

(** [a >= b] and [a <= b], modelled on numbers. *)
Definition js_ge (a b : value) : M bool :=
  match a, b with
  | VNum x, VNum y =>
      ret (match num_compare x y with Some Gt | Some Eq => true | _ => false end)
  | _, _ => throw Unmodelled
  end.

Definition js_le (a b : value) : M bool :=
  match a, b with
  | VNum x, VNum y =>
      ret (match num_compare x y with Some Lt | Some Eq => true | _ => false end)
  | _, _ => throw Unmodelled
  end.

(** The test on the vertical midpoint of a section.
<<
    const rect = sec.getBoundingClientRect();
    const mid = rect.top + rect.height / 2;
    ... mid >= 0 && mid <= window.innerHeight ...
>> *)
Definition midpoint_in_view (H : host) (sec : value) : M bool :=
  rect <- getBoundingClientRect H sec ;;
  top <- get_prop rect "top" ;;
  height <- get_prop rect "height" ;;
  half <- js_div H height (VNum (num_of_nat 2)) ;;
  mid <- js_add H top half ;;
  js_and (js_ge mid (VNum (num_of_nat 0)))
         (h <- innerHeight H ;; js_le mid h).

(** The body of the loop over the sections: the value of [current] after
    the statements for [sec].
<<
    if (!sec || !sec.id) continue;
    ...
    if (mid >= 0 && mid <= window.innerHeight) current = sec.id;
>> *)
Definition scan_body (H : host) (sec current : value) : M value :=
  skip <- js_or (ret (negb (truthy sec)))
                (id <- get_prop sec "id" ;; ret (negb (truthy id))) ;;
  if skip then ret current else
  ok <- midpoint_in_view H sec ;;
  if ok then get_prop sec "id" else ret current.

(** [for (const sec of sections) { ... }], continued from index [i]: the
    array iterator compares the index with the length before every step. *)
Fixpoint scan (H : host) (fuel : nat) (sections : value) (i : nat) (current : value)
  : M value :=
  match fuel with
  | O => throw OutOfFuel
  | S fuel' =>
      len <- get_prop sections "length" ;;
      more <- js_lt (VNum (num_of_nat i)) len ;;
      if more then
        sec <- get_index sections i ;;
        current' <- scan_body H sec current ;;
        scan H fuel' sections (S i) current'
      else ret current
  end.

(** The scroll handler that is installed when there is no
    [IntersectionObserver].
<<
    let current = activeRef.current;
    for (const sec of sections) { ... }
    if (current !== activeRef.current) {
      activeRef.current = current;
      setActiveSection(current);
    }
>> *)
Definition onScroll (H : host) (activeRef sections : value) : M unit :=
  current <- get_prop activeRef "current" ;;
  current <- (λ w, scan H (S (array_size (heap w) sections)) sections 0 current w) ;;
  current' <- get_prop activeRef "current" ;;
  if negb (js_strict_eq current current') then
    set_prop activeRef "current" current ;;;
    emit (HostCall "setActiveSection" [current])
  else ret tt.

(** A section counts for the fallback: it is there, it has an identifier
    that is truthy, and its midpoint is in view. *)
Definition in_view (H : host) (w : world) (sec : value) : bool :=
  truthy sec && truthy (field (heap w) sec "id") &&
  match midpoint_in_view H sec w with
  | (Ret ok, _) => ok
  | (Abort _, _) => false
  end.

(** The layout can be asked about every section that has an identifier:
    the question returns and changes nothing. *)
Definition layout_answers (H : host) (w : world) (sections : list value) : Prop :=
  ∀ sec, sec ∈ sections → truthy sec = true →
         truthy (field (heap w) sec "id") = true →
         ∃ ok, midpoint_in_view H sec w = (Ret ok, w).

(** A page for trying the fallback: three sections whose rectangles are
    kept with them, and a window 800 pixels high.  Numbers are added and
    halved exactly, which is right for these small integers. *)
Definition page : world := world_of [
  (1, obj [("current", VStr "home")]);
  (2, arr [VRef 10; VRef 20; VRef 30]);
  (3, arr [VRef 10; VNull; VRef 30]);
  (10, obj [("id", VStr "home"); ("rect", VRef 11)]);
  (11, obj [("top", VNum (Dyadic (-900) 0)); ("height", VNum (Dyadic 800 0))]);
  (20, obj [("id", VStr "features"); ("rect", VRef 21)]);
  (21, obj [("top", VNum (Dyadic (-100) 0)); ("height", VNum (Dyadic 600 0))]);
  (30, obj [("id", VStr "portfolio"); ("rect", VRef 31)]);
  (31, obj [("top", VNum (Dyadic 500 0)); ("height", VNum (Dyadic 1000 0))])
]%positive.

Definition page_host : host := mkHost
  (λ sec, get_prop sec "rect")
  (ret (VNum (Dyadic 800 0)))
  (λ x y, match x, y with
          | Dyadic m1 e1, Dyadic m2 e2 =>
              let e := Z.min e1 e2 in
              Dyadic (m1 * 2 ^ (e1 - e) + m2 * 2 ^ (e2 - e)) e
          | _, _ => NaN
          end)
  (λ x y, match x, y with
          | Dyadic m1 e1, Dyadic 2 0 => Dyadic m1 (e1 - 1)
          | _, _ => NaN
          end).

End Fallback.

(** ** Lemmas on the primitive operations *)

Lemma num_compare_nat (i n : nat) :
  num_compare (num_of_nat i) (num_of_nat n) = Some (Z.of_nat i ?= Z.of_nat n).
Proof.
  unfold num_compare, num_of_nat. cbn. by rewrite !Z.mul_1_r.
Qed.

Lemma js_lt_nat (i n : nat) (w : world) :
  js_lt (VNum (num_of_nat i)) (VNum (num_of_nat n)) w = (Ret (i <? n)%nat, w).
Proof.
  unfold js_lt, ret. rewrite num_compare_nat. f_equal. f_equal.
  destruct (Nat.ltb_spec i n) as [H|H].
  - apply Nat2Z.inj_lt in H. apply Z.compare_lt_iff in H. by rewrite H.
  - apply Nat2Z.inj_le in H. destruct (Z.compare_spec (Z.of_nat i) (Z.of_nat n)); [done|lia|done].
Qed.

Lemma js_gt_nat (i n : nat) (w : world) :
  js_gt (VNum (num_of_nat i)) (VNum (num_of_nat n)) w = (Ret (n <? i)%nat, w).
Proof.
  unfold js_gt, ret. rewrite num_compare_nat. f_equal. f_equal.
  destruct (Nat.ltb_spec n i) as [H|H].
  - apply Nat2Z.inj_lt in H. apply Z.compare_gt_iff in H. by rewrite H.
  - apply Nat2Z.inj_le in H. destruct (Z.compare_spec (Z.of_nat i) (Z.of_nat n)); [done|done|lia].
Qed.

Lemma read_prop_defined h v k :
  v ≠ VUndefined → v ≠ VNull → read_prop h v k = Ret (field h v k).
Proof.
  intros Hu Hn. unfold field.
  destruct v; simpl; try done; repeat case_match; done.
Qed.

Lemma read_prop_truthy h v k :
  truthy v = true → read_prop h v k = Ret (field h v k).
Proof.
  intros Ht. apply read_prop_defined; intros ->; discriminate.
Qed.

(** Only objects carry the properties that the resolver reads from an entry
    or from a target. *)
Lemma field_primitive h v k :
  (∀ l, v ≠ VRef l) → k ≠ "length"%string → field h v k = VUndefined.
Proof.
  intros Hv Hk. unfold field. destruct v; simpl; try done.
  - apply String.eqb_neq in Hk. by rewrite Hk.
  - by destruct (Hv l).
Qed.

Lemma field_falsy h v k :
  truthy v = false → k ≠ "length"%string → field h v k = VUndefined.
Proof.
  intros Hv. apply field_primitive. intros l ->. discriminate.
Qed.

Lemma typeof_is_string v w :
  ∃ t, typeof v w = (Ret t, w) ∧
       String.eqb t "string" = match v with VStr _ => true | _ => false end.
Proof.
  destruct v; try (eexists; split; reflexivity).
  unfold typeof, inspect. destruct (class (object_at (heap w) l));
    eexists; split; reflexivity.
Qed.

Lemma string_length_pos (s : string) :
  (0 <? String.length s)%nat = negb (String.eqb s "").
Proof. by destruct s. Qed.

(** ** Running computations *)

Lemma bind_run {A B} (m : M A) (k : A → M B) w a w' :
  m w = (Ret a, w') → bind m k w = k a w'.
Proof. intros H. unfold bind. by rewrite H. Qed.

Lemma bind_ret {A B} (a : A) (k : A → M B) w : bind (ret a) k w = k a w.
Proof. reflexivity. Qed.

Lemma get_index_run w entries elems i :
  array_elems (heap w) entries = Some elems →
  get_index entries i w = (Ret (default VUndefined (elems !! i)), w).
Proof.
  intros Harr. unfold get_index, inspect, read_index.
  destruct entries; try discriminate. simpl in Harr.
  destruct (class (object_at (heap w) l)); try discriminate. congruence.
Qed.

Lemma get_prop_run w v k :
  truthy v = true → get_prop v k w = (Ret (field (heap w) v k), w).
Proof.
  intros Hv. unfold get_prop, inspect. by rewrite read_prop_truthy.
Qed.

Lemma get_length_string_run w s :
  get_prop (VStr s) "length" w = (Ret (VNum (num_of_nat (String.length s))), w).
Proof. reflexivity. Qed.

Lemma get_length_array_run w entries elems :
  array_elems (heap w) entries = Some elems →
  get_prop entries "length" w = (Ret (VNum (num_of_nat (length elems))), w).
Proof.
  intros Harr. unfold get_prop, inspect, read_prop.
  destruct entries; try discriminate. simpl in Harr.
  destruct (class (object_at (heap w) l)); try discriminate.
  simpl. congruence.
Qed.

Lemma Array_isArray_run w entries :
  Array_isArray entries w = (Ret (bool_decide (is_Some (array_elems (heap w) entries))), w).
Proof.
  unfold Array_isArray, inspect, array_elems.
  destruct entries; try reflexivity.
  destruct (class (object_at (heap w) l)); reflexivity.
Qed.

(** ** The loop body, the loop and the call *)

Lemma loop_body_run w entries elems i nextId :
  array_elems (heap w) entries = Some elems →
  App.loop_body entries i nextId w
  = (Ret (step (heap w) nextId (default VUndefined (elems !! i))), w).
Proof.
  intros Harr. unfold App.loop_body, step, qualifies.
  erewrite bind_run by (by apply get_index_run).
  set (entry := default VUndefined (elems !! i)).
  unfold js_or, js_and.
  rewrite (bind_run (bind (ret (negb (truthy entry))) _) _ w
             (negb (truthy entry && truthy (field (heap w) entry "isIntersecting"))) w).
  2:{ rewrite bind_ret.
      destruct (truthy entry) eqn:Hentry; [|done]. cbn [negb andb].
      by rewrite (bind_run _ _ w _ w (get_prop_run _ _ _ Hentry)). }
  destruct (truthy entry) eqn:Hentry; [|done].
  destruct (truthy (field (heap w) entry "isIntersecting")); [|done].
  cbn [negb andb].
  rewrite (bind_run _ _ w _ w (get_prop_run _ _ _ Hentry)).
  set (target := field (heap w) entry "target").
  destruct (truthy target) eqn:Htarget.
  2:{ by rewrite (bind_run _ _ w false w). }
  set (tid := field (heap w) target "id").
  assert (get_prop target "id" w = (Ret tid, w)) as Hid by by apply get_prop_run.
  destruct (typeof_is_string tid w) as (t & Htype & Ht).
  destruct tid as [| | | | |s| |] eqn:Htid.
  6:{ rewrite (bind_run _ _ w (0 <? String.length s)%nat w).
      - destruct (0 <? String.length s)%nat; [done|reflexivity].
      - rewrite bind_ret.
        rewrite (bind_run (bind (get_prop target "id") _) _ w true w).
        + rewrite (bind_run _ _ w _ w Hid).
          rewrite (bind_run _ _ w _ w (get_length_string_run w s)).
          apply js_gt_nat.
        + rewrite (bind_run _ _ w _ w Hid).
          rewrite (bind_run _ _ w _ w Htype). by rewrite Ht. }
  all: rewrite (bind_run _ _ w false w); [reflexivity|].
  all: rewrite bind_ret.
  all: rewrite (bind_run (bind (get_prop target "id") _) _ w false w); [reflexivity|].
  all: rewrite (bind_run _ _ w _ w Hid).
  all: rewrite (bind_run _ _ w _ w Htype); by rewrite Ht.
Qed.

Lemma array_size_elems h entries elems :
  array_elems h entries = Some elems → array_size h entries = length elems.
Proof.
  unfold array_elems, array_size. destruct entries; try discriminate.
  destruct (class (object_at h l)); try discriminate. congruence.
Qed.

Lemma for_loop_run w entries elems fuel i nextId :
  array_elems (heap w) entries = Some elems →
  (length elems - i < fuel)%nat →
  App.for_loop fuel entries i nextId w
  = (Ret (fold_left (step (heap w)) (drop i elems) nextId), w).
Proof.
  intros Harr. revert i nextId.
  induction fuel as [|fuel IH]; intros i nextId Hfuel; [lia|].
  cbn [App.for_loop].
  rewrite (bind_run _ _ w _ w (get_length_array_run _ _ _ Harr)).
  rewrite (bind_run _ _ w _ w (js_lt_nat _ _ _)).
  destruct (Nat.ltb_spec i (length elems)) as [Hlt|Hge].
  - rewrite (bind_run _ _ w _ w (loop_body_run _ _ _ _ _ Harr)).
    rewrite IH by lia.
    destruct (lookup_lt_is_Some_2 elems i Hlt) as [e He].
    rewrite (drop_S _ _ _ He), He. reflexivity.
  - by rewrite drop_ge.
Qed.

(** The call returns [resolve] of its arguments and leaves the world as it
    found it. *)
Lemma computeActiveFromEntries_run w entries prevId :
  App.computeActiveFromEntries entries prevId w
  = (Ret (resolve (heap w) entries prevId), w).
Proof.
  unfold App.computeActiveFromEntries, resolve.
  rewrite (bind_run _ _ w _ w (Array_isArray_run _ _)).
  destruct (array_elems (heap w) entries) as [elems|] eqn:Harr.
  - rewrite bool_decide_eq_true_2 by eauto. cbn [negb].
    rewrite (for_loop_run _ _ _ _ _ _ Harr).
    + by rewrite drop_0.
    + rewrite (array_size_elems _ _ _ Harr). lia.
  - rewrite bool_decide_eq_false_2; [done|]. by intros [? ?].
Qed.

(** ** Qualifying entries and the fold over a batch *)

Lemma qualifies_qualifying h e id :
  qualifies h e = Some id ↔ qualifying h e id.
Proof.
  unfold qualifies, qualifying, target_id. split.
  - destruct (truthy e) eqn:He; [|done].
    destruct (truthy (field h e "isIntersecting")) eqn:Hf; [|done].
    destruct (truthy (field h e "target")) eqn:Ht; [|done].
    destruct (field h (field h e "target") "id") as [| | | | |s| |] eqn:Hid; try done.
    rewrite string_length_pos.
    destruct (String.eqb_spec s ""); [done|]. cbn [negb].
    intros [= ->]. repeat split; try done; intros ->; discriminate.
  - intros (Hn & Hu & Hf & Hid & Hne).
    destruct (truthy e) eqn:He.
    2:{ rewrite field_falsy in Hf; done. }
    rewrite Hf.
    destruct (truthy (field h e "target")) eqn:Ht.
    2:{ rewrite (field_falsy _ _ "id") in Hid; done. }
    rewrite Hid, string_length_pos.
    by destruct (String.eqb_spec id "").
Qed.

Lemma qualifies_None h e :
  qualifies h e = None ↔ ¬ ∃ id, qualifying h e id.
Proof.
  split.
  - intros Hq [id Hid]. apply qualifies_qualifying in Hid. congruence.
  - intros Hn. destruct (qualifies h e) as [id|] eqn:Hq; [|done].
    destruct Hn. exists id. by apply qualifies_qualifying.
Qed.

Lemma non_qualifying_qualifies h e :
  non_qualifying h e → qualifies h e = None.
Proof.
  intros Hnq. apply qualifies_None. intros [id (Hn & Hu & Hf & Hid & Hne)].
  destruct Hnq as [| |e Hfalse|e Habs|e Hns|e Hempty]; try done.
  - by rewrite Hfalse in Hf.
  - congruence.
  - by apply (Hns id).
  - congruence.
Qed.

Lemma step_qualifying h nextId e id :
  qualifying h e id → step h nextId e = VStr id.
Proof. intros H. apply qualifies_qualifying in H. unfold step. by rewrite H. Qed.

Lemma step_skip h nextId e :
  qualifies h e = None → step h nextId e = nextId.
Proof. intros H. unfold step. by rewrite H. Qed.

Lemma fold_step_skip h elems nextId :
  Forall (λ e, qualifies h e = None) elems →
  fold_left (step h) elems nextId = nextId.
Proof.
  intros H. revert nextId. induction H as [|e elems He _ IH]; intros nextId; [done|].
  cbn [fold_left]. by rewrite step_skip.
Qed.

(** A qualifying entry erases what came before it. *)
Lemma fold_step_last h pre e post nextId id :
  qualifying h e id →
  Forall (λ x, qualifies h x = None) post →
  fold_left (step h) (pre ++ e :: post) nextId = VStr id.
Proof.
  intros He Hpost. rewrite fold_left_app. cbn [fold_left].
  rewrite (step_qualifying _ _ _ _ He). by apply fold_step_skip.
Qed.

Lemma fold_step_insert h pre e post nextId :
  qualifies h e = None →
  fold_left (step h) (pre ++ e :: post) nextId
  = fold_left (step h) (pre ++ post) nextId.
Proof.
  intros He. rewrite !fold_left_app. cbn [fold_left]. by rewrite step_skip.
Qed.

(** The result of a fold is the start value or was supplied by an element
    that qualifies. *)
Lemma fold_step_origin h elems nextId :
  fold_left (step h) elems nextId = nextId ∨
  ∃ e id, e ∈ elems ∧ qualifying h e id ∧
          fold_left (step h) elems nextId = VStr id.
Proof.
  revert nextId. induction elems as [|e elems IH]; intros nextId; [by left|].
  cbn [fold_left]. destruct (IH (step h nextId e)) as [Heq|(x & id & Hx & Hq & Heq)].
  - rewrite Heq. unfold step. destruct (qualifies h e) as [id|] eqn:Hq; [|by left].
    right. exists e, id. split; [left|]. split; [|done]. by apply qualifies_qualifying.
  - right. exists x, id. split; [by right|done].
Qed.

(** Once a qualifying entry has been seen the start value no longer
    matters; otherwise the start value is returned. *)
Lemma fold_step_start h elems a b :
  fold_left (step h) elems a = fold_left (step h) elems b ∨
  (fold_left (step h) elems a = a ∧ fold_left (step h) elems b = b).
Proof.
  revert a b. induction elems as [|e elems IH]; intros a b; [by right|].
  cbn [fold_left]. destruct (qualifies h e) as [id|] eqn:Hq.
  - left. unfold step. by rewrite Hq.
  - rewrite !(step_skip _ _ _ Hq). apply IH.
Qed.

Lemma fold_step_idempotent h elems a :
  fold_left (step h) elems (fold_left (step h) elems a) = fold_left (step h) elems a.
Proof.
  destruct (fold_step_start h elems (fold_left (step h) elems a) a) as [H|[H _]]; done.
Qed.

Lemma copies_agree entries prevId w :
  Part000.computeActiveFromEntries entries prevId w
  = App.computeActiveFromEntries entries prevId w.
Proof. reflexivity. Qed.

(** ** The runtime assertions of [App] *)

(** Test 1: [[null, undefined]]. *)
Example assertion_1 : run_assertion 10 = (Ret home, test_world).
Proof. vm_compute. reflexivity. Qed.

(** Test 2: [[{ isIntersecting: true, target: null }]]. *)
Example assertion_2 : run_assertion 20 = (Ret home, test_world).
Proof. vm_compute. reflexivity. Qed.

(** Test 3: one intersecting entry for "features". *)
Example assertion_3 : run_assertion 30 = (Ret (VStr "features"), test_world).
Proof. vm_compute. reflexivity. Qed.

(** Test 4: "home" then "portfolio", both intersecting. *)
Example assertion_4 : run_assertion 40 = (Ret (VStr "portfolio"), test_world).
Proof. vm_compute. reflexivity. Qed.

(** Test 5: an entry that does not intersect. *)
Example assertion_5 : run_assertion 50 = (Ret home, test_world).
Proof. vm_compute. reflexivity. Qed.

(** Test 6: the empty batch. *)
Example assertion_6 : run_assertion 60 = (Ret home, test_world).
Proof. vm_compute. reflexivity. Qed.

(** Test 7: an empty identifier. *)
Example assertion_7 : run_assertion 70 = (Ret home, test_world).
Proof. vm_compute. reflexivity. Qed.

(** Test 8: the identifier 123. *)
Example assertion_8 : run_assertion 80 = (Ret home, test_world).
Proof. vm_compute. reflexivity. Qed.

(** [null] and [undefined] in place of the batch. *)
Example assertion_null :
  App.computeActiveFromEntries VNull home test_world = (Ret home, test_world) ∧
  App.computeActiveFromEntries VUndefined home test_world = (Ret home, test_world).
Proof. split; vm_compute; reflexivity. Qed.


(** ** The contract of the resolver *)

(** C1.  When the batch holds a qualifying entry, the call returns the
    target identifier of the last qualifying entry in iteration order,
    whatever [prevId] is and whatever qualified before it. *)
Theorem last_qualifying_entry_wins w entries prevId pre e post id :
  array_elems (heap w) entries = Some (pre ++ e :: post) →
  qualifying (heap w) e id →
  Forall (λ x, ¬ ∃ id', qualifying (heap w) x id') post →
  App.computeActiveFromEntries entries prevId w = (Ret (VStr id), w).
Proof.
  intros Harr He Hpost. rewrite computeActiveFromEntries_run.
  unfold resolve. rewrite Harr. f_equal. f_equal.
  apply fold_step_last; [done|].
  eapply Forall_impl; [exact Hpost|]. intros x Hx. by apply qualifies_None.
Qed.

Lemma last_qualifying_entry_wins_witness :
  App.computeActiveFromEntries (VRef 48%positive) (VStr "home") test_world
  = (Ret (VStr "portfolio"), test_world).
Proof.
  apply (last_qualifying_entry_wins test_world (VRef 48%positive) (VStr "home")
           [VRef 41%positive] (VRef 43%positive) [VRef 51%positive; VNull] "portfolio").
  - reflexivity.
  - repeat split; try discriminate; reflexivity.
  - repeat constructor.
    + intros [id' (_ & _ & Hf & _)]. vm_compute in Hf. discriminate.
    + intros [id' (Hn & _)]. by apply Hn.
Defined.

(** C2.  When [entries] is not an array, or is an array none of whose
    entries qualifies (the empty array among them), the call returns
    [prevId] unchanged. *)
Theorem no_qualifying_entry_keeps_previous w entries prevId :
  Array_isArray entries w = (Ret false, w) ∨
  (∃ elems, array_elems (heap w) entries = Some elems ∧
            Forall (λ e, ¬ ∃ id, qualifying (heap w) e id) elems) →
  App.computeActiveFromEntries entries prevId w = (Ret prevId, w).
Proof.
  intros H. rewrite computeActiveFromEntries_run. f_equal. f_equal.
  unfold resolve. destruct H as [Hno|(elems & Harr & Hnone)].
  - rewrite Array_isArray_run in Hno.
    destruct (array_elems (heap w) entries) as [elems|]; [|done].
    rewrite bool_decide_eq_true_2 in Hno by eauto. discriminate.
  - rewrite Harr. apply fold_step_skip.
    eapply Forall_impl; [exact Hnone|]. intros x Hx. by apply qualifies_None.
Qed.

Lemma no_qualifying_entry_keeps_previous_witness :
  App.computeActiveFromEntries VNull (VStr "home") test_world
  = (Ret (VStr "home"), test_world) ∧
  App.computeActiveFromEntries (VRef 60%positive) (VStr "home") test_world
  = (Ret (VStr "home"), test_world).
Proof.
  split.
  - apply no_qualifying_entry_keeps_previous. left. reflexivity.
  - apply no_qualifying_entry_keeps_previous. right. exists []. split.
    + reflexivity.
    + constructor.
Defined.

(** C3.  An entry that is null or absent, or whose [isIntersecting] is
    false, or whose target identifier is absent, not a string or empty, does
    not affect the result: the batch with the entry inserted at any position
    and the batch without it give the same result, for every [prevId]. *)
Theorem non_qualifying_entry_is_ignored w entries entries' prevId pre e post :
  array_elems (heap w) entries = Some (pre ++ post) →
  array_elems (heap w) entries' = Some (pre ++ e :: post) →
  non_qualifying (heap w) e →
  App.computeActiveFromEntries entries' prevId w
  = App.computeActiveFromEntries entries prevId w.
Proof.
  intros Harr Harr' He. rewrite !computeActiveFromEntries_run.
  unfold resolve. rewrite Harr, Harr'. f_equal. f_equal.
  apply fold_step_insert. by apply non_qualifying_qualifies.
Qed.

Lemma non_qualifying_entry_is_ignored_witness :
  App.computeActiveFromEntries (VRef 46%positive) (VStr "resume") test_world
  = App.computeActiveFromEntries (VRef 40%positive) (VStr "resume") test_world.
Proof.
  apply (non_qualifying_entry_is_ignored test_world (VRef 40%positive) (VRef 46%positive)
           (VStr "resume") [VRef 41%positive] (VRef 51%positive) [VRef 43%positive]).
  - reflexivity.
  - reflexivity.
  - apply nq_not_intersecting. reflexivity.
Defined.

(** C4.  The call returns a value that is [prevId] itself or the target
    identifier of an entry of the batch that qualifies: an entry that is
    present and not null, whose [isIntersecting] holds and whose identifier
    is a non-empty string.  Hence a non-empty string for [prevId] gives a
    non-empty string as result. *)
Theorem result_is_previous_or_qualifying_id w entries prevId :
  ∃ r, App.computeActiveFromEntries entries prevId w = (Ret r, w) ∧
       (r = prevId ∨
        ∃ elems e id, array_elems (heap w) entries = Some elems ∧ e ∈ elems ∧
                      qualifying (heap w) e id ∧ r = VStr id) ∧
       (nonempty_string prevId → nonempty_string r).
Proof.
  exists (resolve (heap w) entries prevId).
  split; [apply computeActiveFromEntries_run|].
  assert (resolve (heap w) entries prevId = prevId ∨
          ∃ elems e id, array_elems (heap w) entries = Some elems ∧ e ∈ elems ∧
            qualifying (heap w) e id ∧ resolve (heap w) entries prevId = VStr id) as H.
  { unfold resolve. destruct (array_elems (heap w) entries) as [elems|]; [|by left].
    destruct (fold_step_origin (heap w) elems prevId) as [Heq|(e & id & He & Hq & Heq)].
    - by left.
    - right. by exists elems, e, id. }
  split; [exact H|].
  intros Hprev. destruct H as [->|(elems & e & id & _ & _ & Hq & ->)]; [done|].
  exists id. split; [done|]. apply Hq.
Qed.

Lemma result_is_previous_or_qualifying_id_witness :
  ∃ r, App.computeActiveFromEntries (VRef 40%positive) (VStr "home") test_world
       = (Ret r, test_world) ∧ nonempty_string r.
Proof.
  destruct (result_is_previous_or_qualifying_id test_world (VRef 40%positive) (VStr "home"))
    as (r & Hrun & _ & Hne).
  exists r. split; [exact Hrun|].
  apply Hne. exists "home"%string. split; [reflexivity|discriminate].
Defined.

(** C5.  For two qualifying entries [a] and [b] with different target
    identifiers, the batch [[a, b]] resolves to the identifier of [b] and the
    batch [[b, a]] to the identifier of [a]: the order decides. *)
Theorem order_of_two_qualifying_entries_decides w ab ba prevId a b ida idb :
  array_elems (heap w) ab = Some [a; b] →
  array_elems (heap w) ba = Some [b; a] →
  qualifying (heap w) a ida →
  qualifying (heap w) b idb →
  ida ≠ idb →
  App.computeActiveFromEntries ab prevId w = (Ret (VStr idb), w) ∧
  App.computeActiveFromEntries ba prevId w = (Ret (VStr ida), w) ∧
  App.computeActiveFromEntries ab prevId w ≠ App.computeActiveFromEntries ba prevId w.
Proof.
  intros Hab Hba Ha Hb Hne.
  assert (App.computeActiveFromEntries ab prevId w = (Ret (VStr idb), w)) as H1.
  { rewrite computeActiveFromEntries_run. unfold resolve. rewrite Hab.
    f_equal. f_equal. by apply (fold_step_last _ [a] b []). }
  assert (App.computeActiveFromEntries ba prevId w = (Ret (VStr ida), w)) as H2.
  { rewrite computeActiveFromEntries_run. unfold resolve. rewrite Hba.
    f_equal. f_equal. by apply (fold_step_last _ [b] a []). }
  split; [done|]. split; [done|]. rewrite H1, H2. congruence.
Qed.

Lemma order_of_two_qualifying_entries_decides_witness :
  App.computeActiveFromEntries (VRef 40%positive) (VStr "resume") test_world
  = (Ret (VStr "portfolio"), test_world) ∧
  App.computeActiveFromEntries (VRef 45%positive) (VStr "resume") test_world
  = (Ret (VStr "home"), test_world).
Proof.
  destruct (order_of_two_qualifying_entries_decides test_world
              (VRef 40%positive) (VRef 45%positive) (VStr "resume")
              (VRef 41%positive) (VRef 43%positive) "home" "portfolio")
    as (H1 & H2 & _).
  - reflexivity.
  - reflexivity.
  - repeat split; try discriminate; reflexivity.
  - repeat split; try discriminate; reflexivity.
  - discriminate.
  - split; [exact H1|exact H2].
Defined.

(** C6.  Resolving a batch against the result of resolving the same batch
    gives that result again:
    [computeActiveFromEntries(entries, computeActiveFromEntries(entries, prevId))]
    equals [computeActiveFromEntries(entries, prevId)]. *)
Theorem resolving_twice_is_resolving_once w entries prevId :
  (r <- App.computeActiveFromEntries entries prevId ;;
   App.computeActiveFromEntries entries r) w
  = App.computeActiveFromEntries entries prevId w.
Proof.
  rewrite (bind_run _ _ w _ w (computeActiveFromEntries_run _ _ _)).
  rewrite !computeActiveFromEntries_run. f_equal. f_equal.
  unfold resolve. destruct (array_elems (heap w) entries) as [elems|]; [|done].
  apply fold_step_idempotent.
Qed.

(** C7.  The call is pure and deterministic.  It leaves the world as it
    found it: no object, so neither argument, is changed and no host call is
    made.  Two calls in a row with the same arguments return the same value.
    The value depends on the heap only, not on what was done before. *)
Theorem computeActiveFromEntries_is_pure w entries prevId :
  snd (App.computeActiveFromEntries entries prevId w) = w ∧
  (∃ r, (a <- App.computeActiveFromEntries entries prevId ;;
         b <- App.computeActiveFromEntries entries prevId ;;
         ret (a, b)) w = (Ret (r, r), w)) ∧
  (∀ w', heap w' = heap w →
         fst (App.computeActiveFromEntries entries prevId w')
         = fst (App.computeActiveFromEntries entries prevId w)).
Proof.
  split; [by rewrite computeActiveFromEntries_run|]. split.
  - exists (resolve (heap w) entries prevId).
    rewrite (bind_run _ _ w _ w (computeActiveFromEntries_run _ _ _)).
    by rewrite (bind_run _ _ w _ w (computeActiveFromEntries_run _ _ _)).
  - intros w' Hw'. rewrite !computeActiveFromEntries_run. cbn [fst]. by rewrite Hw'.
Qed.

Lemma computeActiveFromEntries_is_pure_witness :
  fst (App.computeActiveFromEntries (VRef 40%positive) (VStr "home")
         (mkWorld (heap test_world) [HostCall "setActiveSection" [VStr "home"]]))
  = fst (App.computeActiveFromEntries (VRef 40%positive) (VStr "home") test_world).
Proof.
  destruct (computeActiveFromEntries_is_pure test_world (VRef 40%positive) (VStr "home"))
    as (_ & _ & H).
  apply H. reflexivity.
Defined.

(** C8.  The call returns a value for every pair of arguments and every
    heap: it never throws, whatever [entries] and its elements are. *)
Theorem computeActiveFromEntries_never_throws w entries prevId :
  ∃ r, App.computeActiveFromEntries entries prevId w = (Ret r, w).
Proof.
  exists (resolve (heap w) entries prevId). apply computeActiveFromEntries_run.
Qed.

(** C9.  The checks on an entry are truthiness checks, in both copies of
    the function.  An entry whose [isIntersecting] is any truthy value, a
    boolean or not, and whose target identifier is a non-empty string sets the
    result.  An entry that is any falsy value, or whose [isIntersecting] is
    falsy or missing, is passed over exactly as [null] is. *)
Theorem entry_checks_use_truthiness resolver w prevId pre post :
  resolver = App.computeActiveFromEntries ∨
  resolver = Part000.computeActiveFromEntries →
  (∀ entries e id,
      array_elems (heap w) entries = Some (pre ++ [e]) →
      truthy (field (heap w) e "isIntersecting") = true →
      target_id (heap w) e = VStr id → id ≠ ""%string →
      resolver entries prevId w = (Ret (VStr id), w)) ∧
  (∀ entries entries' e,
      array_elems (heap w) entries = Some (pre ++ e :: post) →
      array_elems (heap w) entries' = Some (pre ++ VNull :: post) →
      truthy e = false ∨ truthy (field (heap w) e "isIntersecting") = false →
      resolver entries prevId w = resolver entries' prevId w).
Proof.
  intros Hres.
  assert (∀ entries p, resolver entries p w = (Ret (resolve (heap w) entries p), w)) as Hrun.
  { intros entries p. destruct Hres as [-> | ->].
    - apply computeActiveFromEntries_run.
    - rewrite copies_agree. apply computeActiveFromEntries_run. }
  split.
  - intros entries e id Harr Hf Hid Hne. rewrite Hrun. f_equal. f_equal.
    unfold resolve. rewrite Harr. apply fold_step_last; [|constructor].
    repeat split; try done; intros ->; discriminate.
  - intros entries entries' e Harr Harr' He. rewrite !Hrun. f_equal. f_equal.
    unfold resolve. rewrite Harr, Harr'.
    rewrite !fold_step_insert; [done|done|].
    unfold qualifies. destruct He as [-> | Hf]; [done|].
    rewrite Hf. by destruct (truthy e).
Qed.

Lemma entry_checks_use_truthiness_witness :
  App.computeActiveFromEntries (VRef 90%positive) (VStr "home") test_world
  = (Ret (VStr "resume"), test_world) ∧
  Part000.computeActiveFromEntries (VRef 94%positive) (VStr "home") test_world
  = Part000.computeActiveFromEntries (VRef 95%positive) (VStr "home") test_world.
Proof.
  split.
  - apply (proj1 (entry_checks_use_truthiness App.computeActiveFromEntries test_world
             (VStr "home") [VRef 41%positive] [] (or_introl eq_refl))
             (VRef 90%positive) (VRef 91%positive) "resume").
    + reflexivity.
    + reflexivity.
    + reflexivity.
    + discriminate.
  - apply (proj2 (entry_checks_use_truthiness Part000.computeActiveFromEntries test_world
             (VStr "home") [VRef 43%positive] [VRef 41%positive] (or_intror eq_refl))
             (VRef 94%positive) (VRef 95%positive) (VNum (Dyadic 0 0))).
    + reflexivity.
    + reflexivity.
    + left. reflexivity.
Defined.

(** C10.  The function exported by [src/App.js] and the function exported
    by the second copy of the component return the same outcome, and leave
    the same world, for every pair of arguments. *)
Theorem the_two_copies_agree entries prevId w :
  App.computeActiveFromEntries entries prevId w
  = Part000.computeActiveFromEntries entries prevId w.
Proof. reflexivity. Qed.

(** ** The observer callback *)

(** For a flag that is a boolean, to qualify is to have the flag [true]. *)
Lemma qualifying_boolean_flag h e id b :
  field h e "isIntersecting" = VBool b →
  qualifying h e id ↔
  e ≠ VNull ∧ e ≠ VUndefined ∧ b = true ∧ target_id h e = VStr id ∧ id ≠ ""%string.
Proof. intros Hb. unfold qualifying. by rewrite Hb. Qed.

Lemma resolve_nonempty_string h entries c :
  c ≠ ""%string → ∃ n, resolve h entries (VStr c) = VStr n ∧ n ≠ ""%string.
Proof.
  intros Hc. unfold resolve.
  destruct (array_elems h entries) as [elems|]; [|by exists c].
  destruct (fold_step_origin h elems (VStr c)) as [->|(e & id & _ & Hq & ->)].
  - by exists c.
  - exists id. split; [done|]. apply Hq.
Qed.

(** The callback keeps [activeRef.current] a non-empty string.  It stores
    the resolved identifier, and tells the component, only when the
    identifier differs from the current one. *)
Lemma observer_callback_run w r entries c :
  field (heap w) (VRef r) "current" = VStr c → c ≠ ""%string →
  ∃ w' n,
    App.observer_callback (VRef r) entries w = (Ret tt, w') ∧
    resolve (heap w) entries (VStr c) = VStr n ∧ n ≠ ""%string ∧
    field (heap w') (VRef r) "current" = VStr n ∧
    trace w' = (if String.eqb n c then trace w
                else trace w ++ [HostCall "setActiveSection" [VStr n]]).
Proof.
  intros Hcur Hc.
  destruct (resolve_nonempty_string (heap w) entries c Hc) as (n & Hres & Hn).
  assert (get_prop (VRef r) "current" w = (Ret (VStr c), w)) as Hget.
  { rewrite get_prop_run by done. by rewrite Hcur. }
  assert (App.computeActiveFromEntries entries (VStr c) w = (Ret (VStr n), w)) as Hrun.
  { by rewrite computeActiveFromEntries_run, Hres. }
  unfold App.observer_callback.
  rewrite (bind_run _ _ w _ w Hget), (bind_run _ _ w _ w Hrun).
  rewrite (bind_run _ _ w (negb (String.eqb n c)) w).
  2:{ unfold js_and.
      rewrite (bind_run _ _ w true w eq_refl).
      rewrite (bind_run _ _ w true w).
      - rewrite (bind_run _ _ w _ w Hget). reflexivity.
      - rewrite (bind_run _ _ w _ w (get_length_string_run w n)).
        rewrite js_gt_nat, string_length_pos.
        by destruct (String.eqb_spec n ""). }
  destruct (String.eqb_spec n c) as [->|Hne]; cbn [negb].
  - exists w, c. by rewrite String.eqb_refl.
  - eexists _, n. split; [reflexivity|]. split; [done|]. split; [done|].
    apply String.eqb_neq in Hne. split; [|by rewrite Hne].
    unfold field, read_prop, object_at. cbn [heap].
    rewrite lookup_insert_eq. cbn [from_option id class props].
    rewrite lookup_insert_eq.
    by destruct (class (default empty_object (heap w !! r))).
Qed.

(** ** The typewriter *)

Local Open Scope nat_scope.

Lemma typewriter_run_app p a b s :
  Typewriter.run p (a + b) s
  = (fst (Typewriter.run p a s) + fst (Typewriter.run p b (snd (Typewriter.run p a s))),
     snd (Typewriter.run p b (snd (Typewriter.run p a s)))).
Proof.
  revert s. induction a as [|a IH]; intros s.
  - cbn. by destruct (Typewriter.run p b s).
  - cbn [Nat.add Typewriter.run]. destruct (Typewriter.effect p s) as [|d s'|s'] eqn:He.
    + cbn [fst snd]. destruct b as [|b]; cbn [Typewriter.run]; [done|]. by rewrite He.
    + rewrite IH. destruct (Typewriter.run p a s') as [t s'']. cbn [fst snd].
      f_equal. lia.
    + apply IH.
Qed.

Lemma typewriter_current p l i t j d :
  Typewriter.strings p = Some l → l !! i = Some t →
  Typewriter.current p (Typewriter.mkState i j d) = t.
Proof.
  intros Hl Ht. unfold Typewriter.current. cbn [Typewriter.idx]. by rewrite Hl, Ht.
Qed.

Lemma typewriter_typing p l i t j k :
  Typewriter.strings p = Some l → l !! i = Some t → t ≠ [] →
  j + k ≤ length t →
  Typewriter.run p k (Typewriter.mkState i j false)
  = (k * Typewriter.typeSpeed p, Typewriter.mkState i (j + k) false).
Proof.
  intros Hl Ht Hne. revert j. induction k as [|k IH]; intros j Hk.
  - cbn. by rewrite Nat.add_0_r.
  - cbn [Typewriter.run]. unfold Typewriter.effect.
    rewrite (typewriter_current p l i t _ _ Hl Ht).
    rewrite bool_decide_eq_false_2 by done. cbn [Typewriter.deleting Typewriter.len negb andb].
    destruct (Nat.ltb_spec j (length t)); [|lia].
    cbn [Typewriter.idx]. rewrite IH by lia. cbv beta iota.
    replace (j + 1 + k) with (j + S k) by lia. reflexivity.
Qed.

Lemma typewriter_pausing p l i t :
  Typewriter.strings p = Some l → l !! i = Some t → t ≠ [] →
  Typewriter.run p 1 (Typewriter.mkState i (length t) false)
  = (Typewriter.pause p, Typewriter.mkState i (length t) true).
Proof.
  intros Hl Ht Hne. cbn [Typewriter.run]. unfold Typewriter.effect.
  rewrite (typewriter_current p l i t _ _ Hl Ht).
  rewrite bool_decide_eq_false_2 by done. cbn [Typewriter.deleting Typewriter.len negb andb].
  rewrite Nat.ltb_irrefl, Nat.eqb_refl. cbn [Typewriter.idx]. f_equal. lia.
Qed.

Lemma typewriter_erasing p l i t j k :
  Typewriter.strings p = Some l → l !! i = Some t → t ≠ [] →
  k ≤ j →
  Typewriter.run p k (Typewriter.mkState i j true)
  = (k * Typewriter.backSpeed p, Typewriter.mkState i (j - k) true).
Proof.
  intros Hl Ht Hne. revert j. induction k as [|k IH]; intros j Hk.
  - cbn. by rewrite Nat.sub_0_r.
  - cbn [Typewriter.run]. unfold Typewriter.effect.
    rewrite (typewriter_current p l i t _ _ Hl Ht).
    rewrite bool_decide_eq_false_2 by done. cbn [Typewriter.deleting Typewriter.len negb andb].
    destruct (Nat.ltb_spec 0 j); [|lia].
    cbn [Typewriter.idx]. rewrite IH by lia. cbv beta iota.
    replace (j - 1 - k) with (j - S k) by lia. reflexivity.
Qed.

Lemma typewriter_advancing p l i t :
  Typewriter.strings p = Some l → l !! i = Some t → t ≠ [] →
  Typewriter.effect p (Typewriter.mkState i 0 true)
  = Typewriter.Now
      (Typewriter.mkState ((i + 1) mod length l)
         (if negb (Typewriter.loop p) && ((i + 1) mod length l =? 0) then length t else 0)
         false).
Proof.
  intros Hl Ht Hne. unfold Typewriter.effect, Typewriter.count.
  rewrite (typewriter_current p l i t _ _ Hl Ht), Hl.
  rewrite bool_decide_eq_false_2 by done. reflexivity.
Qed.

Lemma typewriter_stalled p s k :
  Typewriter.current p s = [] → Typewriter.run p k s = (0, s).
Proof.
  intros Hcur. destruct k as [|k]; [done|].
  cbn [Typewriter.run]. unfold Typewriter.effect.
  by rewrite bool_decide_eq_true_2.
Qed.

(** One string is typed, held and erased, and then the next string is up.
    That takes [2 * length t + 2] runs of the effect. *)
Lemma typewriter_one_string p l i t :
  Typewriter.strings p = Some l → l !! i = Some t → t ≠ [] →
  Typewriter.loop p = true ∨ (i + 1) mod length l ≠ 0 →
  Typewriter.run p (2 * length t + 2) (Typewriter.mkState i 0 false)
  = (length t * Typewriter.typeSpeed p + Typewriter.pause p
     + length t * Typewriter.backSpeed p,
     Typewriter.mkState ((i + 1) mod length l) 0 false).
Proof.
  intros Hl Ht Hne Hloop.
  replace (2 * length t + 2) with (length t + (1 + (length t + 1))) by lia.
  rewrite typewriter_run_app, (typewriter_typing p l i t 0 (length t)) by (done || lia).
  cbn [fst snd]. rewrite Nat.add_0_l.
  rewrite (typewriter_run_app p 1), (typewriter_pausing p l i t) by done.
  cbn [fst snd].
  rewrite (typewriter_run_app p (length t) 1).
  rewrite (typewriter_erasing p l i t (length t) (length t)) by (done || lia).
  cbn [fst snd]. rewrite Nat.sub_diag.
  cbn [Typewriter.run]. rewrite (typewriter_advancing p l i t) by done.
  cbn [fst snd]. f_equal; [lia|]. f_equal.
  destruct Hloop as [-> | Hnext]; [done|].
  apply Nat.eqb_neq in Hnext. rewrite Hnext. by rewrite andb_false_r.
Qed.

Lemma typewriter_in_range_step p l s :
  Typewriter.strings p = Some l → Typewriter.loop p = true →
  Typewriter.idx s < length l ∧ Typewriter.len s ≤ length (Typewriter.current p s) →
  ∀ s', (∃ d, Typewriter.effect p s = Typewriter.After d s') ∨
        Typewriter.effect p s = Typewriter.Now s' →
  Typewriter.idx s' < length l ∧ Typewriter.len s' ≤ length (Typewriter.current p s').
Proof.
  intros Hl Hloop [Hidx Hlen] s' Heff.
  assert (∀ j d, Typewriter.current p (Typewriter.mkState (Typewriter.idx s) j d)
                 = Typewriter.current p s) as Hcur by done.
  unfold Typewriter.effect in Heff.
  destruct (bool_decide (Typewriter.current p s = [])); [by destruct Heff as [[? ?]|?]|].
  destruct (Typewriter.deleting s);
    cbn [negb andb] in Heff.
  - destruct (Nat.ltb_spec 0 (Typewriter.len s)).
    + destruct Heff as [[d [= _ <-]]|?]; [|done]. rewrite Hcur. cbn. split; [done|lia].
    + destruct (Nat.eqb_spec (Typewriter.len s) 0); [|by destruct Heff as [[? ?]|?]].
      destruct Heff as [[? ?]|[= <-]]; [done|]. rewrite Hloop. cbn [negb andb].
      split; [|cbn; lia]. cbn. unfold Typewriter.count. rewrite Hl. cbn.
      apply Nat.mod_upper_bound. lia.
  - destruct (Nat.ltb_spec (Typewriter.len s) (length (Typewriter.current p s))).
    + destruct Heff as [[d [= _ <-]]|?]; [|done]. rewrite Hcur. cbn. split; [done|lia].
    + destruct (Nat.eqb_spec (Typewriter.len s) (length (Typewriter.current p s)));
        [|by destruct Heff as [[? ?]|?]].
      destruct Heff as [[d [= _ <-]]|?]; [|done]. rewrite Hcur. cbn. split; [done|lia].
Qed.

Lemma typewriter_in_range_run p l k s :
  Typewriter.strings p = Some l → Typewriter.loop p = true →
  Typewriter.idx s < length l ∧ Typewriter.len s ≤ length (Typewriter.current p s) →
  let s' := snd (Typewriter.run p k s) in
  Typewriter.idx s' < length l ∧ Typewriter.len s' ≤ length (Typewriter.current p s').
Proof.
  intros Hl Hloop. revert s. induction k as [|k IH]; intros s Hs; [done|].
  cbn [Typewriter.run]. destruct (Typewriter.effect p s) as [|d s1|s1] eqn:Heff.
  - done.
  - specialize (IH s1 (typewriter_in_range_step p l s Hl Hloop Hs s1 (or_introl (ex_intro _ d Heff)))).
    by destruct (Typewriter.run p k s1).
  - exact (IH s1 (typewriter_in_range_step p l s Hl Hloop Hs s1 (or_intror Heff))).
Qed.

(** X1.  A string of the list is typed one character per [typeSpeed]
    milliseconds until it stands in full, is held for [pause], is erased one
    character per [backSpeed], and then the string after it (the first one
    after the last) is up with nothing typed yet. *)
Theorem typewriter_types_holds_erases_advances p l i t :
  Typewriter.strings p = Some l → l !! i = Some t → t ≠ [] →
  Typewriter.loop p = true ∨ (i + 1) mod length l ≠ 0 →
  Typewriter.run p (length t) (Typewriter.mkState i 0 false)
  = (length t * Typewriter.typeSpeed p, Typewriter.mkState i (length t) false) ∧
  Typewriter.shown p (Typewriter.mkState i (length t) false) = t ∧
  Typewriter.run p (2 * length t + 2) (Typewriter.mkState i 0 false)
  = (length t * Typewriter.typeSpeed p + Typewriter.pause p
     + length t * Typewriter.backSpeed p,
     Typewriter.mkState ((i + 1) mod length l) 0 false).
Proof.
  intros Hl Ht Hne Hloop. split; [|split].
  - by rewrite (typewriter_typing p l i t 0 (length t)) by (done || lia).
  - unfold Typewriter.shown. rewrite (typewriter_current p l i t _ _ Hl Ht).
    apply firstn_all.
  - by apply typewriter_one_string.
Qed.

Lemma typewriter_types_holds_erases_advances_witness :
  Typewriter.run (Typewriter.mkProps (Some [[104; 105]; [111; 107; 33]]%N) 80 50 1200 true)
    8 (Typewriter.mkState 1 0 false)
  = (1590, Typewriter.mkState 0 0 false).
Proof.
  apply (typewriter_types_holds_erases_advances
           (Typewriter.mkProps (Some [[104; 105]; [111; 107; 33]]%N) 80 50 1200 true)
           [[104; 105]; [111; 107; 33]]%N 1 [111; 107; 33]%N).
  - reflexivity.
  - reflexivity.
  - discriminate.
  - left. reflexivity.
Defined.

(** X2.  An empty string in the list ends the animation: when the string
    after the current one is empty, the current one is typed, held and
    erased, and after that nothing changes any more and nothing is shown. *)
Theorem typewriter_stops_at_an_empty_string p l i t k :
  Typewriter.strings p = Some l → l !! i = Some t → t ≠ [] →
  l !! ((i + 1) mod length l) = Some [] →
  Typewriter.loop p = true ∨ (i + 1) mod length l ≠ 0 →
  2 * length t + 2 ≤ k →
  Typewriter.run p k (Typewriter.mkState i 0 false)
  = (length t * Typewriter.typeSpeed p + Typewriter.pause p
     + length t * Typewriter.backSpeed p,
     Typewriter.mkState ((i + 1) mod length l) 0 false) ∧
  Typewriter.shown p (snd (Typewriter.run p k (Typewriter.mkState i 0 false))) = [].
Proof.
  intros Hl Ht Hne Hnext Hloop Hk.
  assert (Typewriter.run p k (Typewriter.mkState i 0 false)
          = (length t * Typewriter.typeSpeed p + Typewriter.pause p
             + length t * Typewriter.backSpeed p,
             Typewriter.mkState ((i + 1) mod length l) 0 false)) as Hrun.
  { replace k with ((2 * length t + 2) + (k - (2 * length t + 2))) by lia.
    rewrite typewriter_run_app, (typewriter_one_string p l i t) by done.
    cbn [fst snd]. rewrite typewriter_stalled.
    - cbn [fst snd]. f_equal. lia.
    - by apply (typewriter_current p l _ []). }
  split; [done|]. by rewrite Hrun.
Qed.

Lemma typewriter_stops_at_an_empty_string_witness :
  Typewriter.run (Typewriter.mkProps (Some [[104; 105]; []]%N) 80 50 1200 true)
    1000 (Typewriter.mkState 0 0 false)
  = (1460, Typewriter.mkState 1 0 false).
Proof.
  apply (typewriter_stops_at_an_empty_string
           (Typewriter.mkProps (Some [[104; 105]; []]%N) 80 50 1200 true)
           [[104; 105]; []]%N 0 [104; 105]%N 1000).
  - reflexivity.
  - reflexivity.
  - discriminate.
  - reflexivity.
  - left. reflexivity.
  - cbn. lia.
Defined.

(** X3.  With [loop] set and a list that is not empty, the state stays in
    range however long the animation runs: [idx] is an index of the list,
    [len] is at most the length of the current string, and the text on the
    page has exactly [len] characters. *)
Theorem typewriter_stays_in_range p l k :
  Typewriter.strings p = Some l → l ≠ [] → Typewriter.loop p = true →
  let s := snd (Typewriter.run p k Typewriter.initial) in
  Typewriter.idx s < length l ∧
  Typewriter.len s ≤ length (Typewriter.current p s) ∧
  length (Typewriter.shown p s) = Typewriter.len s.
Proof.
  intros Hl Hne Hloop.
  destruct (typewriter_in_range_run p l k Typewriter.initial Hl Hloop) as [Hidx Hlen].
  { cbn. split; [|lia]. destruct l; [done|cbn; lia]. }
  cbn zeta. split; [done|]. split; [done|].
  unfold Typewriter.shown. rewrite length_take. lia.
Qed.

Lemma typewriter_stays_in_range_witness :
  Typewriter.idx (snd (Typewriter.run
    (Typewriter.mkProps (Some [[104; 105]; [111; 107; 33]]%N) 80 50 1200 true)
    11 Typewriter.initial)) < 2.
Proof.
  apply (typewriter_stays_in_range
           (Typewriter.mkProps (Some [[104; 105]; [111; 107; 33]]%N) 80 50 1200 true)
           [[104; 105]; [111; 107; 33]]%N 11).
  - reflexivity.
  - discriminate.
  - reflexivity.
Defined.

(** X4.  Without [loop] the animation does not simply end after the last
    string.  The effect goes back to the first string and takes over the
    length of the last one as [len].  It then comes to rest, with the first
    string shown in full, exactly when the first string is shorter than the
    last one (or empty); otherwise it carries on with the first string. *)
Theorem typewriter_without_loop_rests_only_on_a_shorter_first_string p l first t :
  Typewriter.loop p = false →
  Typewriter.strings p = Some l → l !! 0 = Some first → last l = Some t → t ≠ [] →
  Typewriter.effect p (Typewriter.mkState (length l - 1) 0 true)
  = Typewriter.Now (Typewriter.mkState 0 (length t) false) ∧
  (Typewriter.effect p (Typewriter.mkState 0 (length t) false) = Typewriter.Idle
   ↔ first = [] ∨ length first < length t) ∧
  (Typewriter.effect p (Typewriter.mkState 0 (length t) false) = Typewriter.Idle →
   Typewriter.shown p (Typewriter.mkState 0 (length t) false) = first).
Proof.
  intros Hloop Hl Hfirst Hlast Hne.
  assert (0 < length l) as Hpos by (destruct l; [done|cbn; lia]).
  rewrite last_lookup in Hlast.
  replace (Init.Nat.pred (length l)) with (length l - 1) in Hlast by lia.
  assert (Typewriter.effect p (Typewriter.mkState 0 (length t) false) = Typewriter.Idle
          ↔ first = [] ∨ length first < length t) as Hrest.
  { unfold Typewriter.effect. rewrite (typewriter_current p l 0 first _ _ Hl Hfirst).
    cbn [Typewriter.deleting Typewriter.len negb andb].
    destruct (decide (first = [])) as [->|Hf].
    - rewrite bool_decide_eq_true_2 by done. split; [by left|done].
    - rewrite bool_decide_eq_false_2 by done.
      destruct (Nat.ltb_spec (length t) (length first));
        [split; [done|intros [?|?]; [done|lia]]|].
      destruct (Nat.eqb_spec (length t) (length first));
        [split; [done|intros [?|?]; [done|lia]]|].
      split; [right; lia|done]. }
  split; [|split; [exact Hrest|]].
  - rewrite (typewriter_advancing p l (length l - 1) t Hl Hlast Hne), Hloop.
    replace (length l - 1 + 1) with (length l) by lia.
    by rewrite Nat.Div0.mod_same.
  - intros Hidle. apply Hrest in Hidle. unfold Typewriter.shown.
    rewrite (typewriter_current p l 0 first _ _ Hl Hfirst). cbn [Typewriter.len].
    apply take_ge. destruct Hidle as [->|?]; cbn; lia.
Qed.

Lemma typewriter_without_loop_rests_only_on_a_shorter_first_string_witness :
  Typewriter.effect (Typewriter.mkProps (Some [[104; 105]; [111; 107]]%N) 80 50 1200 false)
    (Typewriter.mkState 0 2 false)
  ≠ Typewriter.Idle.
Proof.
  intros Hidle.
  destruct (typewriter_without_loop_rests_only_on_a_shorter_first_string
              (Typewriter.mkProps (Some [[104; 105]; [111; 107]]%N) 80 50 1200 false)
              [[104; 105]; [111; 107]]%N [104; 105]%N [111; 107]%N
              eq_refl eq_refl eq_refl eq_refl) as (_ & Hrest & _); [discriminate|].
  apply Hrest in Hidle.
  destruct Hidle as [Hempty|Hshort]; [discriminate|]. cbn in Hshort. lia.
Defined.

(** ** The theme toggle *)

Lemma String_of_bool_true b :
  bool_decide (Some (ThemeToggle.String_of_bool b) = Some "true"%string) = b.
Proof. by destruct b. Qed.

Lemma classList_toggle_elem name force classes c :
  c ∈ ThemeToggle.classList_toggle name force classes
  ↔ (c = name ∧ force = true) ∨ (c ≠ name ∧ c ∈ classes) ∨ (force = true ∧ c ∈ classes).
Proof.
  unfold ThemeToggle.classList_toggle. destruct force.
  - rewrite elem_of_union, elem_of_singleton.
    destruct (decide (c = name)); intuition congruence.
  - rewrite elem_of_difference, elem_of_singleton. intuition congruence.
Qed.

(** X5.  The choice of theme survives a reload.  After a click on the
    toggle, a component that mounts on the same [localStorage], whatever the
    classes of the new document are, starts with the theme that the click
    chose and sets the class [dark] accordingly. *)
Theorem theme_survives_reload dark b classes :
  let stored := ThemeToggle.localStorage (snd (ThemeToggle.onToggle dark b)) in
  let reloaded := ThemeToggle.mount (ThemeToggle.mkBrowser stored classes) in
  fst reloaded = fst (ThemeToggle.onToggle dark b) ∧
  fst reloaded = negb dark ∧
  ("dark"%string ∈ ThemeToggle.classList (snd reloaded) ↔ negb dark = true).
Proof.
  cbn. rewrite lookup_insert_eq, String_of_bool_true.
  split; [done|]. split; [done|].
  rewrite classList_toggle_elem. destruct dark; intuition congruence.
Qed.

(** X6.  After the mount effect and after every click the class [dark] is
    on the document element exactly when the state [dark] is set.  No other
    class is added or removed.  Mounting writes nothing to [localStorage];
    a click writes the key [theme-dark] and no other key. *)
Theorem theme_class_follows_state dark b :
  let mounted := ThemeToggle.mount b in
  let clicked := ThemeToggle.onToggle dark b in
  ("dark"%string ∈ ThemeToggle.classList (snd mounted) ↔ fst mounted = true) ∧
  ("dark"%string ∈ ThemeToggle.classList (snd clicked) ↔ fst clicked = true) ∧
  (∀ c, c ≠ "dark"%string →
        (c ∈ ThemeToggle.classList (snd mounted) ↔ c ∈ ThemeToggle.classList b) ∧
        (c ∈ ThemeToggle.classList (snd clicked) ↔ c ∈ ThemeToggle.classList b)) ∧
  ThemeToggle.localStorage (snd mounted) = ThemeToggle.localStorage b ∧
  (∀ k, k ≠ "theme-dark"%string →
        ThemeToggle.localStorage (snd clicked) !! k = ThemeToggle.localStorage b !! k).
Proof.
  cbn. repeat split.
  - rewrite classList_toggle_elem. intuition congruence.
  - intros H. rewrite classList_toggle_elem. intuition congruence.
  - rewrite classList_toggle_elem. intuition congruence.
  - intros H. rewrite classList_toggle_elem. intuition congruence.
  - rewrite classList_toggle_elem. intuition congruence.
  - intros H'. rewrite classList_toggle_elem. intuition congruence.
  - rewrite classList_toggle_elem. intuition congruence.
  - intros H'. rewrite classList_toggle_elem. intuition congruence.
  - intros k Hk. by rewrite lookup_insert_ne.
Qed.

Lemma theme_class_follows_state_witness :
  "scroll-smooth"%string ∈ ThemeToggle.classList (snd (ThemeToggle.onToggle false
     (ThemeToggle.mkBrowser ∅ {["scroll-smooth"%string]}))).
Proof.
  destruct (theme_class_follows_state false
              (ThemeToggle.mkBrowser ∅ {["scroll-smooth"%string]}))
    as (_ & _ & Hother & _).
  apply (Hother "scroll-smooth"%string); [discriminate|].
  cbn. by apply elem_of_singleton.
Defined.

(** X7.  Two clicks undo each other: the state is back, [localStorage]
    holds the state as a string, and when the class [dark] agreed with the
    state before, the class list is what it was. *)
Theorem theme_two_clicks_restore dark b :
  let once := ThemeToggle.onToggle dark b in
  let twice := ThemeToggle.onToggle (fst once) (snd once) in
  fst twice = dark ∧
  ThemeToggle.localStorage (snd twice) !! "theme-dark"%string
  = Some (ThemeToggle.String_of_bool dark) ∧
  (("dark"%string ∈ ThemeToggle.classList b ↔ dark = true) →
   ThemeToggle.classList (snd twice) = ThemeToggle.classList b).
Proof.
  cbn. rewrite negb_involutive, lookup_insert_eq. split; [done|]. split; [done|].
  intros Hsync. apply set_eq. intros c.
  rewrite !classList_toggle_elem.
  destruct dark; destruct (decide (c = "dark"%string)) as [->|]; intuition congruence.
Qed.

Lemma theme_two_clicks_restore_witness :
  ThemeToggle.classList
    (snd (ThemeToggle.onToggle true
       (snd (ThemeToggle.onToggle false (ThemeToggle.mkBrowser ∅ ∅)))))
  = ∅.
Proof.
  destruct (theme_two_clicks_restore false (ThemeToggle.mkBrowser ∅ ∅))
    as (_ & _ & Hclasses).
  apply Hclasses. cbn. split; [|discriminate]. intros H. by apply not_elem_of_empty in H.
Defined.

(** ** The observer callback over a run of batches *)

Lemma same_but_current_refl r h : same_but_current r h h.
Proof. by split. Qed.

Lemma same_but_current_trans r h1 h2 h3 :
  same_but_current r h1 h2 → same_but_current r h2 h3 → same_but_current r h1 h3.
Proof.
  intros [Hc1 Hp1] [Hc2 Hp2]. split.
  - intros l. by rewrite Hc2.
  - intros l k Hk. by rewrite Hp2, Hp1.
Qed.

Lemma same_but_current_set r h x :
  same_but_current r h
    (<[r := mkObject (class (object_at h r)) (<["current"%string := x]> (props (object_at h r)))]> h).
Proof.
  split.
  - intros l. unfold object_at at 1. destruct (decide (l = r)) as [->|Hl].
    + by rewrite lookup_insert_eq.
    + by rewrite lookup_insert_ne.
  - intros l k Hk. unfold object_at at 1. destruct (decide (l = r)) as [->|Hl].
    + rewrite lookup_insert_eq. cbn. rewrite lookup_insert_ne; [done|]. congruence.
    + by rewrite lookup_insert_ne.
Qed.

Lemma same_but_current_read r h h' v k :
  same_but_current r h h' → k ≠ "current"%string → read_prop h' v k = read_prop h v k.
Proof.
  intros [Hclass Hprops] Hk. destruct v; try reflexivity.
  unfold read_prop. rewrite Hclass, Hprops; [done|]. congruence.
Qed.

Lemma same_but_current_elems r h h' v :
  same_but_current r h h' → array_elems h' v = array_elems h v.
Proof.
  intros [Hclass _]. destruct v; try reflexivity. unfold array_elems. by rewrite Hclass.
Qed.

Lemma same_but_current_qualifies r h h' e :
  same_but_current r h h' → qualifies h' e = qualifies h e.
Proof.
  intros Hsame. unfold qualifies, field.
  by rewrite !(same_but_current_read r h h').
Qed.

Lemma same_but_current_resolve r h h' entries prevId :
  same_but_current r h h' → resolve h' entries prevId = resolve h entries prevId.
Proof.
  intros Hsame. unfold resolve. rewrite (same_but_current_elems r h h') by done.
  destruct (array_elems h entries) as [elems|]; [|done].
  revert prevId. induction elems as [|e elems IH]; intros prevId; [done|].
  cbn [fold_left]. rewrite IH. unfold step.
  by rewrite (same_but_current_qualifies r h h').
Qed.

Lemma resolve_idempotent h entries prevId :
  resolve h entries (resolve h entries prevId) = resolve h entries prevId.
Proof.
  unfold resolve. destruct (array_elems h entries); [|done]. apply fold_step_idempotent.
Qed.

(** The world after the callback, written out. *)
Lemma observer_callback_world w r entries c n :
  field (heap w) (VRef r) "current" = VStr c →
  resolve (heap w) entries (VStr c) = VStr n → n ≠ ""%string →
  App.observer_callback (VRef r) entries w
  = (Ret tt,
     if String.eqb n c then w
     else mkWorld
            (<[r := mkObject (class (object_at (heap w) r))
                             (<["current"%string := VStr n]> (props (object_at (heap w) r)))]>
               (heap w))
            (trace w ++ [HostCall "setActiveSection" [VStr n]])).
Proof.
  intros Hcur Hres Hn.
  assert (get_prop (VRef r) "current" w = (Ret (VStr c), w)) as Hget.
  { rewrite get_prop_run by done. by rewrite Hcur. }
  assert (App.computeActiveFromEntries entries (VStr c) w = (Ret (VStr n), w)) as Hrun.
  { by rewrite computeActiveFromEntries_run, Hres. }
  unfold App.observer_callback.
  rewrite (bind_run _ _ w _ w Hget), (bind_run _ _ w _ w Hrun).
  rewrite (bind_run _ _ w (negb (String.eqb n c)) w).
  2:{ unfold js_and.
      rewrite (bind_run _ _ w true w eq_refl).
      rewrite (bind_run _ _ w true w).
      - rewrite (bind_run _ _ w _ w Hget). reflexivity.
      - rewrite (bind_run _ _ w _ w (get_length_string_run w n)).
        rewrite js_gt_nat, string_length_pos.
        by destruct (String.eqb_spec n ""). }
  by destruct (String.eqb n c).
Qed.

Lemma field_current_set h r x :
  field (<[r := mkObject (class (object_at h r))
                         (<["current"%string := x]> (props (object_at h r)))]> h)
        (VRef r) "current" = x.
Proof.
  unfold field, read_prop, object_at. rewrite lookup_insert_eq.
  cbn [from_option id class props]. rewrite lookup_insert_eq.
  by destruct (class (default empty_object (h !! r))).
Qed.

(** X8.  When [activeRef.current] is a non-empty string, the callback
    returns without an exception and leaves in [activeRef.current] the
    identifier that the resolver gives for the batch, again a non-empty
    string.  When that identifier is the current one, nothing at all
    changes: no write and no call of [setActiveSection].  Otherwise
    [setActiveSection] is called once, with the new identifier, and nothing
    in the heap changes but [activeRef.current]. *)
Theorem observer_callback_publishes_changes_only w r entries c :
  field (heap w) (VRef r) "current" = VStr c → c ≠ ""%string →
  ∃ w' n,
    App.observer_callback (VRef r) entries w = (Ret tt, w') ∧
    resolve (heap w) entries (VStr c) = VStr n ∧ n ≠ ""%string ∧
    field (heap w') (VRef r) "current" = VStr n ∧
    same_but_current r (heap w) (heap w') ∧
    (n = c → w' = w) ∧
    (n ≠ c → trace w' = trace w ++ [HostCall "setActiveSection" [VStr n]]).
Proof.
  intros Hcur Hc.
  destruct (resolve_nonempty_string (heap w) entries c Hc) as (n & Hres & Hn).
  eexists _, n. split; [by apply (observer_callback_world w r entries c n)|].
  split; [done|]. split; [done|].
  destruct (String.eqb_spec n c) as [->|Hne].
  - split; [done|]. split; [apply same_but_current_refl|]. done.
  - cbn [heap trace]. split; [apply field_current_set|].
    split; [apply same_but_current_set|]. done.
Qed.

Lemma observer_callback_publishes_changes_only_witness :
  ∃ w', App.observer_callback (VRef 1%positive) (VRef 40%positive) test_world = (Ret tt, w') ∧
        field (heap w') (VRef 1%positive) "current" = VStr "portfolio" ∧
        trace w' = [HostCall "setActiveSection" [VStr "portfolio"]].
Proof.
  destruct (observer_callback_publishes_changes_only test_world 1%positive
              (VRef 40%positive) "home") as (w' & n & Hrun & Hres & _ & Hcur & _ & _ & Htrace).
  - reflexivity.
  - discriminate.
  - vm_compute in Hres. injection Hres as <-.
    exists w'. split; [exact Hrun|]. split; [exact Hcur|].
    apply Htrace. discriminate.
Defined.

(** X9.  A batch that is delivered twice has no effect the second time:
    the second call of the callback changes nothing and calls nothing. *)
Theorem observer_callback_repeated_batch_is_silent w r entries c :
  field (heap w) (VRef r) "current" = VStr c → c ≠ ""%string →
  ∃ w',
    App.observer_callback (VRef r) entries w = (Ret tt, w') ∧
    App.observer_callback (VRef r) entries w' = (Ret tt, w').
Proof.
  intros Hcur Hc.
  destruct (observer_callback_publishes_changes_only w r entries c Hcur Hc)
    as (w' & n & Hrun & Hres & Hn & Hcur' & Hsame & _ & _).
  exists w'. split; [done|].
  rewrite (observer_callback_world w' r entries n n); [by rewrite String.eqb_refl|done| |done].
  rewrite (same_but_current_resolve r (heap w) (heap w')) by done.
  rewrite <- Hres. apply resolve_idempotent.
Qed.

Lemma observer_callback_repeated_batch_is_silent_witness :
  ∃ w', App.observer_callback (VRef 1%positive) (VRef 40%positive) test_world = (Ret tt, w') ∧
        App.observer_callback (VRef 1%positive) (VRef 40%positive) w' = (Ret tt, w').
Proof.
  apply (observer_callback_repeated_batch_is_silent test_world 1%positive
           (VRef 40%positive) "home").
  - reflexivity.
  - discriminate.
Defined.

Lemma announced_frame r h h' c batches :
  same_but_current r h h' → announced h' c batches = announced h c batches.
Proof.
  intros Hsame. revert c. induction batches as [|entries later IH]; intros c; [done|].
  cbn [announced]. rewrite (same_but_current_resolve r h h') by done.
  destruct (resolve h entries (VStr c)); try apply IH.
  destruct (String.eqb s c); [apply IH|]. by rewrite IH.
Qed.

Lemma announced_adjacent h c batches i a b :
  (c :: announced h c batches) !! i = Some a →
  (c :: announced h c batches) !! S i = Some b →
  a ≠ b.
Proof.
  revert c i. induction batches as [|entries later IH]; intros c i Ha Hb.
  - destruct i; discriminate.
  - cbn [announced] in Ha, Hb.
    destruct (resolve h entries (VStr c)) as [| | | | |n| |];
      try (cbn iota in Ha, Hb; by apply (IH c i)).
    destruct (String.eqb_spec n c) as [Heq|Hne]; [by apply (IH c i)|].
    destruct i as [|i].
    + cbn in Ha, Hb. congruence.
    + by apply (IH n i).
Qed.

Lemma last_nonempty_default {A} (x d d' : A) (l : list A) :
  List.last (x :: l) d = List.last (x :: l) d'.
Proof.
  revert x. induction l as [|y l IH]; intros x; [done|].
  change (List.last (y :: l) d = List.last (y :: l) d'). apply IH.
Qed.

Lemma last_cons_default {A} (x d : A) (l : list A) :
  List.last (x :: l) d = List.last l x.
Proof.
  destruct l as [|y l]; [done|].
  change (List.last (y :: l) d = List.last (y :: l) x). apply last_nonempty_default.
Qed.

(** X10.  Over any run of batches the component is told of every change
    of the active section and of nothing else.  [setActiveSection] is called
    with the identifiers that differ from the one before them, in order, so
    never twice in a row with the same one; in the end [activeRef.current]
    is the identifier announced last, or the one it started with. *)
Theorem deliver_announces_each_change_once w r batches c :
  field (heap w) (VRef r) "current" = VStr c → c ≠ ""%string →
  ∃ w',
    deliver (VRef r) batches w = (Ret tt, w') ∧
    trace w' = trace w ++
      ((λ n, HostCall "setActiveSection" [VStr n]) <$> announced (heap w) c batches) ∧
    field (heap w') (VRef r) "current"
    = VStr (List.last (announced (heap w) c batches) c) ∧
    (∀ i a b, (c :: announced (heap w) c batches) !! i = Some a →
              (c :: announced (heap w) c batches) !! S i = Some b → a ≠ b).
Proof.
  intros Hcur Hc.
  assert (∃ w', deliver (VRef r) batches w = (Ret tt, w') ∧
            trace w' = trace w ++
              ((λ n, HostCall "setActiveSection" [VStr n]) <$> announced (heap w) c batches) ∧
            field (heap w') (VRef r) "current"
            = VStr (List.last (announced (heap w) c batches) c)) as (w' & H1 & H2 & H3).
  { revert w c Hcur Hc. induction batches as [|entries later IH]; intros w c Hcur Hc.
    - exists w. cbn. by rewrite app_nil_r.
    - destruct (observer_callback_publishes_changes_only w r entries c Hcur Hc)
        as (w1 & n & Hrun & Hres & Hn & Hcur1 & Hsame & Heq & Hneq).
      cbn [deliver announced]. rewrite (bind_run _ _ w _ w1 Hrun), Hres.
      destruct (String.eqb_spec n c) as [->|Hne].
      + rewrite (Heq eq_refl). apply IH; done.
      + destruct (IH w1 n Hcur1 Hn) as (w' & H1 & H2 & H3).
        rewrite (announced_frame r (heap w) (heap w1)) in H2, H3 by done.
        exists w'. split; [done|]. split.
        * rewrite H2, (Hneq Hne), <- app_assoc. reflexivity.
        * by rewrite last_cons_default. }
  exists w'. repeat split; try done. intros i a b. apply announced_adjacent.
Qed.

Lemma deliver_announces_each_change_once_witness :
  ∃ w', deliver (VRef 1%positive)
          [VRef 40%positive; VRef 46%positive; VRef 10%positive; VRef 45%positive]
          test_world = (Ret tt, w') ∧
        trace w' = [HostCall "setActiveSection" [VStr "portfolio"];
                    HostCall "setActiveSection" [VStr "home"]] ∧
        field (heap w') (VRef 1%positive) "current" = VStr "home".
Proof.
  destruct (deliver_announces_each_change_once test_world 1%positive
              [VRef 40%positive; VRef 46%positive; VRef 10%positive; VRef 45%positive]
              "home") as (w' & Hrun & Htrace & Hcur & _).
  - reflexivity.
  - discriminate.
  - exists w'. split; [exact Hrun|]. split; [exact Htrace|exact Hcur].
Defined.

(** X11.  Two batches resolved one after the other give what the two
    batches give as one: resolving [b] against the result of resolving [a]
    equals resolving the batch that holds the entries of [a] followed by
    those of [b]. *)
Theorem resolving_in_two_batches w a b ab ea eb prevId :
  array_elems (heap w) a = Some ea →
  array_elems (heap w) b = Some eb →
  array_elems (heap w) ab = Some (ea ++ eb) →
  (r <- App.computeActiveFromEntries a prevId ;;
   App.computeActiveFromEntries b r) w
  = App.computeActiveFromEntries ab prevId w.
Proof.
  intros Ha Hb Hab.
  rewrite (bind_run _ _ w _ w (computeActiveFromEntries_run _ _ _)).
  rewrite !computeActiveFromEntries_run. f_equal. f_equal.
  unfold resolve. by rewrite Ha, Hb, Hab, fold_left_app.
Qed.

Lemma resolving_in_two_batches_witness :
  (r <- App.computeActiveFromEntries (VRef 2%positive) (VStr "home") ;;
   App.computeActiveFromEntries (VRef 3%positive) r) split_world
  = App.computeActiveFromEntries (VRef 1%positive) (VStr "home") split_world.
Proof.
  apply (resolving_in_two_batches split_world (VRef 2%positive) (VRef 3%positive)
           (VRef 1%positive) [VRef 4%positive] [VRef 6%positive]).
  - reflexivity.
  - reflexivity.
  - reflexivity.
Defined.

(** ** The project search *)

Lemma starts_with_spec s sub :
  Search.starts_with s sub = true ↔ ∃ post, s = sub ++ post.
Proof.
  revert s. induction sub as [|c sub IH]; intros s.
  - split; [intros _; by exists s|intros _; by destruct s].
  - destruct s as [|d s]; cbn [Search.starts_with].
    + split; [done|]. intros [post Hpost]. discriminate.
    + rewrite andb_true_iff, N.eqb_eq, IH. split.
      * intros [-> [post ->]]. by exists post.
      * intros [post [= -> ->]]. split; [done|]. by exists post.
Qed.

Lemma includes_spec s sub :
  Search.includes s sub = true ↔ ∃ pre post, s = pre ++ sub ++ post.
Proof.
  induction s as [|d s IH]; cbn [Search.includes].
  - rewrite orb_false_r, starts_with_spec. split.
    + intros [post Hpost]. by exists [], post.
    + intros (pre & post & Heq). destruct pre; [by exists post|discriminate].
  - rewrite orb_true_iff, starts_with_spec, IH. split.
    + intros [[post Hpost]|(pre & post & ->)].
      * by exists [], post.
      * by exists (d :: pre), post.
    + intros (pre & post & Heq). destruct pre as [|x pre].
      * left. by exists post.
      * right. injection Heq as -> ->. by exists pre, post.
Qed.

Lemma includes_trans s a b :
  Search.includes s a = true → Search.includes a b = true → Search.includes s b = true.
Proof.
  rewrite !includes_spec. intros (p1 & q1 & ->) (p2 & q2 & ->).
  exists (p1 ++ p2), (q2 ++ q1). by rewrite <- !app_assoc.
Qed.

Lemma matches_narrow lower q q' p :
  Search.includes (lower q') (lower q) = true →
  Search.matches lower q' p = true → Search.matches lower q p = true.
Proof.
  intros Hsub. unfold Search.matches. rewrite !orb_true_iff, !existsb_exists.
  intros [Htitle|(t & Ht & Htag)].
  - left. by apply (includes_trans _ (lower q')).
  - right. exists t. split; [done|]. by apply (includes_trans _ (lower q')).
Qed.

Lemma filter_filter_implied {A} (f g : A → bool) (l : list A) :
  (∀ x, f x = true → g x = true) →
  List.filter f (List.filter g l) = List.filter f l.
Proof.
  intros Himp. induction l as [|x l IH]; [done|].
  cbn [List.filter]. destruct (g x) eqn:Hg.
  - cbn [List.filter]. by rewrite IH.
  - rewrite IH. destruct (f x) eqn:Hf; [|done]. apply Himp in Hf. congruence.
Qed.

(** X12.  With an empty search box every project is listed, in the
    order of the list. *)
Theorem search_with_empty_query_lists_every_project lower projects :
  lower [] = [] →
  Search.filtered lower projects [] = projects.
Proof.
  intros Hlower. unfold Search.filtered.
  induction projects as [|p projects IH]; [done|].
  cbn [List.filter]. rewrite IH.
  assert (Search.matches lower [] p = true) as ->; [|done].
  unfold Search.matches. rewrite Hlower.
  assert (Search.includes (lower (Search.title p)) [] = true) as ->; [|done].
  apply includes_spec. by exists [], (lower (Search.title p)).
Qed.

Lemma search_with_empty_query_lists_every_project_witness :
  Search.filtered Search.ascii_lower Search.sample_projects [] = Search.sample_projects.
Proof.
  apply search_with_empty_query_lists_every_project. reflexivity.
Defined.

(** X13.  A longer query narrows the list.  When the query typed so far,
    in lower case, occurs in the new query in lower case, the projects
    listed for the new query are those that a search for it among the old
    results finds: each of them was listed before, and none is lost by
    searching the results instead of all projects. *)
Theorem search_narrows_with_a_longer_query lower projects q q' :
  Search.includes (lower q') (lower q) = true →
  Search.filtered lower projects q'
  = Search.filtered lower (Search.filtered lower projects q) q' ∧
  (∀ p, In p (Search.filtered lower projects q') →
        In p (Search.filtered lower projects q)).
Proof.
  intros Hsub. unfold Search.filtered. split.
  - symmetry. apply filter_filter_implied. intros p. by apply matches_narrow.
  - intros p. rewrite !filter_In. intros [Hin Hm]. split; [done|].
    by apply (matches_narrow lower q q').
Qed.

Lemma search_narrows_with_a_longer_query_witness :
  Search.filtered Search.ascii_lower Search.sample_projects (Search.code_units "Sales")
  = Search.filtered Search.ascii_lower
      (Search.filtered Search.ascii_lower Search.sample_projects (Search.code_units "SA"))
      (Search.code_units "Sales").
Proof.
  apply (search_narrows_with_a_longer_query Search.ascii_lower Search.sample_projects
           (Search.code_units "SA") (Search.code_units "Sales")).
  reflexivity.
Defined.

(** ** The typewriter when its strings change *)

(** X14.  When the strings change while one is being typed (the page
    language is switched) and the string now at [idx] is shorter than what
    has been typed, the animation freezes: no timer is set any more, and the
    new string stays on the page in full. *)
Theorem typewriter_freezes_on_a_shorter_string p p' l l' i t t' j k :
  Typewriter.strings p = Some l → l !! i = Some t → t ≠ [] → j ≤ length t →
  Typewriter.strings p' = Some l' → l' !! i = Some t' → length t' < j →
  let s := snd (Typewriter.run p j (Typewriter.mkState i 0 false)) in
  s = Typewriter.mkState i j false ∧
  Typewriter.run p' k s = (0, s) ∧
  Typewriter.shown p' s = t'.
Proof.
  intros Hl Ht Hne Hj Hl' Ht' Hshort.
  rewrite (typewriter_typing p l i t 0 j) by (done || lia).
  cbn [snd Nat.add]. split; [done|]. split.
  - destruct k as [|k]; [done|]. cbn [Typewriter.run]. unfold Typewriter.effect.
    rewrite (typewriter_current p' l' i t' _ _ Hl' Ht').
    cbn [Typewriter.deleting Typewriter.len negb andb].
    destruct (bool_decide (t' = [])); [done|].
    destruct (Nat.ltb_spec j (length t')); [lia|].
    destruct (Nat.eqb_spec j (length t')); [lia|]. done.
  - unfold Typewriter.shown. rewrite (typewriter_current p' l' i t' _ _ Hl' Ht').
    cbn [Typewriter.len]. apply take_ge. lia.
Qed.

Lemma typewriter_freezes_on_a_shorter_string_witness :
  Typewriter.run (Typewriter.mkProps (Some [[111; 107]]%N) 80 50 1200 true) 1000
    (snd (Typewriter.run (Typewriter.mkProps (Some [[104; 97; 108; 108; 111]]%N) 80 50 1200 true)
            4 (Typewriter.mkState 0 0 false)))
  = (0, Typewriter.mkState 0 4 false).
Proof.
  destruct (typewriter_freezes_on_a_shorter_string
              (Typewriter.mkProps (Some [[104; 97; 108; 108; 111]]%N) 80 50 1200 true)
              (Typewriter.mkProps (Some [[111; 107]]%N) 80 50 1200 true)
              [[104; 97; 108; 108; 111]]%N [[111; 107]]%N 0
              [104; 97; 108; 108; 111]%N [111; 107]%N 4 1000)
    as (Hs & Hrun & _).
  - reflexivity.
  - reflexivity.
  - discriminate.
  - cbn. lia.
  - reflexivity.
  - reflexivity.
  - cbn. lia.
  - rewrite Hs in Hrun. rewrite Hs. exact Hrun.
Defined.

(** ** The scroll fallback *)

Lemma scan_body_run H w sec current :
  (truthy sec = true → truthy (field (heap w) sec "id") = true →
   ∃ ok, Fallback.midpoint_in_view H sec w = (Ret ok, w)) →
  Fallback.scan_body H sec current w
  = (Ret (if Fallback.in_view H w sec then field (heap w) sec "id" else current), w).
Proof.
  intros Hlayout. unfold Fallback.scan_body, Fallback.in_view, js_or.
  rewrite (bind_run (bind (ret (negb (truthy sec))) _) _ w
             (negb (truthy sec && truthy (field (heap w) sec "id"))) w).
  2:{ rewrite bind_ret. destruct (truthy sec) eqn:Hsec; [|done]. cbn [negb andb].
      by rewrite (bind_run _ _ w _ w (get_prop_run _ _ _ Hsec)). }
  destruct (truthy sec) eqn:Hsec; [|done].
  destruct (truthy (field (heap w) sec "id")) eqn:Hid; [|done].
  cbn [negb andb]. destruct (Hlayout eq_refl eq_refl) as [ok Hok].
  rewrite (bind_run _ _ w _ w Hok), Hok.
  destruct ok; [|done]. by apply get_prop_run.
Qed.

Lemma scan_run H w sections elems fuel i current :
  array_elems (heap w) sections = Some elems →
  Fallback.layout_answers H w elems →
  length elems - i < fuel →
  Fallback.scan H fuel sections i current w
  = (Ret (fold_left (λ cur sec, if Fallback.in_view H w sec
                                then field (heap w) sec "id" else cur)
                    (drop i elems) current), w).
Proof.
  intros Harr Hlayout. revert i current.
  induction fuel as [|fuel IH]; intros i current Hfuel; [lia|].
  cbn [Fallback.scan].
  rewrite (bind_run _ _ w _ w (get_length_array_run _ _ _ Harr)).
  rewrite (bind_run _ _ w _ w (js_lt_nat _ _ _)).
  destruct (Nat.ltb_spec i (length elems)) as [Hlt|Hge].
  - destruct (lookup_lt_is_Some_2 elems i Hlt) as [sec Hsec].
    rewrite (bind_run _ _ w _ w (get_index_run _ _ _ i Harr)), Hsec.
    cbn [default from_option id].
    rewrite (bind_run _ _ w _ w (scan_body_run H w sec current
               (Hlayout sec (list_elem_of_lookup_2 _ _ _ Hsec)))).
    rewrite IH by lia. by rewrite (drop_S _ _ _ Hsec).
  - by rewrite drop_ge.
Qed.

(** The world after the scroll handler, written out. *)
Lemma onScroll_world H w r sections elems c :
  field (heap w) (VRef r) "current" = VStr c →
  array_elems (heap w) sections = Some elems →
  Fallback.layout_answers H w elems →
  let found := fold_left (λ cur sec, if Fallback.in_view H w sec
                                     then field (heap w) sec "id" else cur)
                         elems (VStr c) in
  Fallback.onScroll H (VRef r) sections w
  = (Ret tt,
     if js_strict_eq found (VStr c) then w
     else mkWorld
            (<[r := mkObject (class (object_at (heap w) r))
                             (<["current"%string := found]> (props (object_at (heap w) r)))]>
               (heap w))
            (trace w ++ [HostCall "setActiveSection" [found]])).
Proof.
  intros Hcur Harr Hlayout found.
  assert (get_prop (VRef r) "current" w = (Ret (VStr c), w)) as Hget.
  { rewrite get_prop_run by done. by rewrite Hcur. }
  unfold Fallback.onScroll.
  rewrite (bind_run _ _ w _ w Hget).
  rewrite (bind_run _ _ w found w).
  2:{ rewrite (scan_run H w sections elems) by (done || (rewrite (array_size_elems _ _ _ Harr); lia)).
      by rewrite drop_0. }
  rewrite (bind_run _ _ w _ w Hget).
  by destruct (js_strict_eq found (VStr c)).
Qed.

(** X15.  Without an observer, a scroll makes the last section in
    document order whose midpoint is in view the active one.
    [activeRef.current] becomes its identifier; [setActiveSection] is called
    with it when it differs from the current identifier, and nothing at all
    happens when it does not. *)
Theorem fallback_picks_the_last_section_in_view H w r sections pre sec post c n :
  field (heap w) (VRef r) "current" = VStr c →
  array_elems (heap w) sections = Some (pre ++ sec :: post) →
  Fallback.layout_answers H w (pre ++ sec :: post) →
  Fallback.in_view H w sec = true →
  field (heap w) sec "id" = VStr n →
  Forall (λ s, Fallback.in_view H w s = false) post →
  ∃ w',
    Fallback.onScroll H (VRef r) sections w = (Ret tt, w') ∧
    field (heap w') (VRef r) "current" = VStr n ∧
    same_but_current r (heap w) (heap w') ∧
    (n = c → w' = w) ∧
    (n ≠ c → trace w' = trace w ++ [HostCall "setActiveSection" [VStr n]]).
Proof.
  intros Hcur Harr Hlayout Hsec Hid Hpost.
  pose proof (onScroll_world H w r sections _ c Hcur Harr Hlayout) as Hrun.
  cbn zeta in Hrun. rewrite fold_left_app in Hrun. cbn [fold_left] in Hrun.
  rewrite Hsec, Hid in Hrun.
  assert (fold_left (λ cur s, if Fallback.in_view H w s
                              then field (heap w) s "id" else cur) post (VStr n)
          = VStr n) as Hrest.
  { clear Hrun Harr Hlayout. induction Hpost as [|s post Hs _ IH]; [done|].
    cbn [fold_left]. by rewrite Hs. }
  rewrite Hrest in Hrun. cbn [js_strict_eq] in Hrun.
  eexists. split; [exact Hrun|].
  destruct (String.eqb_spec n c) as [->|Hne].
  - split; [done|]. split; [apply same_but_current_refl|]. done.
  - cbn [heap trace]. split; [apply field_current_set|].
    split; [apply same_but_current_set|]. done.
Qed.

Lemma fallback_picks_the_last_section_in_view_witness :
  ∃ w', Fallback.onScroll Fallback.page_host (VRef 1%positive) (VRef 2%positive)
          Fallback.page = (Ret tt, w') ∧
        field (heap w') (VRef 1%positive) "current" = VStr "features" ∧
        trace w' = [HostCall "setActiveSection" [VStr "features"]].
Proof.
  destruct (fallback_picks_the_last_section_in_view Fallback.page_host Fallback.page
              1%positive (VRef 2%positive) [VRef 10%positive] (VRef 20%positive)
              [VRef 30%positive] "home" "features")
    as (w' & Hrun & Hcur & _ & _ & Htrace).
  - reflexivity.
  - reflexivity.
  - intros sec Hsec _ _.
    apply elem_of_cons in Hsec as [->|Hsec]; [by eexists|].
    apply elem_of_cons in Hsec as [->|Hsec]; [by eexists|].
    apply elem_of_cons in Hsec as [->|Hsec]; [by eexists|].
    by apply elem_of_nil in Hsec.
  - reflexivity.
  - reflexivity.
  - repeat constructor.
  - exists w'. split; [exact Hrun|]. split; [exact Hcur|]. apply Htrace. discriminate.
Defined.

(** X16.  A scroll that leaves no section with its midpoint in view
    changes nothing: the active section stays, and [setActiveSection] is not
    called. *)
Theorem fallback_keeps_the_section_when_none_is_in_view H w r sections elems c :
  field (heap w) (VRef r) "current" = VStr c →
  array_elems (heap w) sections = Some elems →
  Fallback.layout_answers H w elems →
  Forall (λ s, Fallback.in_view H w s = false) elems →
  Fallback.onScroll H (VRef r) sections w = (Ret tt, w).
Proof.
  intros Hcur Harr Hlayout Hnone.
  rewrite (onScroll_world H w r sections elems c) by done.
  assert (fold_left (λ cur s, if Fallback.in_view H w s
                              then field (heap w) s "id" else cur) elems (VStr c)
          = VStr c) as ->.
  { clear Harr Hlayout. induction Hnone as [|s elems Hs _ IH]; [done|].
    cbn [fold_left]. by rewrite Hs. }
  cbn [js_strict_eq]. by rewrite String.eqb_refl.
Qed.

Lemma fallback_keeps_the_section_when_none_is_in_view_witness :
  Fallback.onScroll Fallback.page_host (VRef 1%positive) (VRef 3%positive) Fallback.page
  = (Ret tt, Fallback.page).
Proof.
  apply (fallback_keeps_the_section_when_none_is_in_view Fallback.page_host Fallback.page
           1%positive (VRef 3%positive) [VRef 10%positive; VNull; VRef 30%positive] "home").
  - reflexivity.
  - reflexivity.
  - intros sec Hsec Htruthy _.
    apply elem_of_cons in Hsec as [->|Hsec]; [by eexists|].
    apply elem_of_cons in Hsec as [->|Hsec]; [discriminate|].
    apply elem_of_cons in Hsec as [->|Hsec]; [by eexists|].
    by apply elem_of_nil in Hsec.
  - repeat constructor.
Defined.
